(** * os-stats: contribution fetching, aggregation and identity resolution

    A shallow embedding of [os-stats.py] and the properties of its three
    components: the contribution fetcher ([__get_contribution_for_user]),
    the aggregator ([__get_aggregate_contributions]) and the identity
    resolver ([__get_users_from_file]), together with the display routines
    that drive them.

    The script is Python 2 (it calls [unicode]): strings are byte strings,
    integers are unbounded, and [str.strip()] removes the six ASCII
    whitespace characters. *)

From stdpp Require Import base gmap sets list strings sorting.
From Stdlib Require Import ZArith Ascii.

Local Open Scope string_scope.
Local Set Warnings "-register-all".

(** ** Python values

    The values that flow through the script are the ones [json] produces:
    [None], booleans, integers, strings, lists and objects.  A JSON object is
    kept as an association list in document order, with unique keys (the
    parser keeps one binding per key).  Non-integer JSON numbers are not
    represented: every metric of the remote interface is a count. *)

Inductive pyval : Type :=
| PNone
| PBool (b : bool)
| PInt (n : Z)
| PStr (s : string)
| PList (l : list pyval)
| PDict (d : list (string * pyval)).

Abbreviation pydict := (list (string * pyval)).

(** Exceptions, by class.  [SystemExit] is the only one that is not a
    subclass of [Exception]. *)
Inductive exn : Type :=
| KeyError (key : string)
| TypeError
| AttributeError
| ValueError
| ConnectionError
| UnicodeDecodeError
| SystemExit (code : Z).

Definition is_Exception (e : exn) : bool :=
  match e with
  | SystemExit _ => false
  | _ => true
  end.

Inductive result (A : Type) : Type :=
| Ok (a : A)
| Raise (e : exn).
Arguments Ok {A} a.
Arguments Raise {A} e.

Global Instance result_ret : MRet result := λ A a, Ok a.
Global Instance result_bind : MBind result := λ A B f m,
  match m with
  | Ok a => f a
  | Raise e => Raise e
  end.

(** [try: body except Exception: pass], leaving [dflt] in the variable the
    body would have assigned. *)
Definition try_except_Exception {A} (body : result A) (dflt : A) : result A :=
  match body with
  | Ok a => Ok a
  | Raise e => if is_Exception e then Ok dflt else Raise e
  end.

(** Truth value of an object, as tested by [if ret:] and [if not contrib:]. *)
Definition truthy (v : pyval) : bool :=
  match v with
  | PNone => false
  | PBool b => b
  | PInt n => negb (n =? 0)%Z
  | PStr s => negb (String.eqb s "")
  | PList l => match l with [] => false | _ => true end
  | PDict d => match d with [] => false | _ => true end
  end.

(** *** Dictionaries *)

Fixpoint dict_get (d : pydict) (key : string) : option pyval :=
  match d with
  | [] => None
  | (k, v) :: d' => if String.eqb k key then Some v else dict_get d' key
  end.

(** [d[key]] *)
Definition dict_getitem (d : pydict) (key : string) : result pyval :=
  match dict_get d key with
  | Some v => Ok v
  | None => Raise (KeyError key)
  end.

(** [d[key] = v]: an existing key keeps its place, a new one is added. *)
Fixpoint dict_set (d : pydict) (key : string) (v : pyval) : pydict :=
  match d with
  | [] => [(key, v)]
  | (k, w) :: d' =>
      if String.eqb k key then (k, v) :: d' else (k, w) :: dict_set d' key v
  end.

Definition dict_keys (d : pydict) : list string := d.*1.

(** [v[key]] for a string subscript: only a dict accepts it. *)
Definition py_getitem (v : pyval) (key : string) : result pyval :=
  match v with
  | PDict d => dict_getitem d key
  | _ => Raise TypeError
  end.

(** [v[key] = w] for a string subscript. *)
Definition py_setitem (v : pyval) (key : string) (w : pyval) : result pyval :=
  match v with
  | PDict d => Ok (PDict (dict_set d key w))
  | _ => Raise TypeError
  end.

(** [v.values()] *)
Definition py_values (v : pyval) : result (list pyval) :=
  match v with
  | PDict d => Ok d.*2
  | _ => Raise AttributeError
  end.

(** Integers and booleans take part in arithmetic. *)
Definition as_int (v : pyval) : option Z :=
  match v with
  | PInt n => Some n
  | PBool b => Some (Z.b2z b)
  | _ => None
  end.

(** [a + b] *)
Definition py_add (a b : pyval) : result pyval :=
  match as_int a, as_int b with
  | Some x, Some y => Ok (PInt (x + y))
  | _, _ =>
      match a, b with
      | PStr s, PStr t => Ok (PStr (s +:+ t))
      | PList l, PList m => Ok (PList (l ++ m))
      | _, _ => Raise TypeError
      end
  end.

(** [sum(vals)]: left to right, starting from the integer 0. *)
Fixpoint py_sum_from (acc : pyval) (vals : list pyval) : result pyval :=
  match vals with
  | [] => Ok acc
  | v :: vals' => acc' ← py_add acc v; py_sum_from acc' vals'
  end.

Definition py_sum (vals : list pyval) : result pyval := py_sum_from (PInt 0) vals.

(** ** Contribution routines *)

Definition STACKALYTICS_BASE_URL : string := "http://stackalytics.com".
Definition CONTRIB_URL : string := STACKALYTICS_BASE_URL +:+ "/api/1.0/contribution".

(** What one GET to the remote service followed by [.json()] can do: the
    request fails, the body is not JSON, or a JSON document is decoded. *)
Inductive response : Type :=
| ConnectionFailed
| BodyNotJson
| Json (v : pyval).

Definition remote := string → response.

Definition requests_get_json (net : remote) (url : string) : result pyval :=
  match net url with
  | ConnectionFailed => Raise ConnectionError
  | BodyNotJson => Raise ValueError
  | Json v => Ok v
  end.

Definition contribution_url (user : string) (release : option string) : string :=
  let url := CONTRIB_URL +:+ "?user_id=" +:+ user in
  match release with
  | Some r =>
      if negb (String.eqb r "")
      then url +:+ "&project_type=openstack&release=" +:+ r
      else url
  | None => url
  end.

(** [requests.get(url).json()['contribution']] *)
Definition fetch_raw (net : remote) (url : string) : result pyval :=
  j ← requests_get_json net url; py_getitem j "contribution".

Definition get_contribution_for_user
    (net : remote) (user : string) (release : option string) : result pyval :=
  let url := contribution_url user release in
  ret ← try_except_Exception (fetch_raw net url) PNone;
  if truthy ret then
    marks ← py_getitem ret "marks";
    vals ← py_values marks;
    total ← py_sum vals;
    py_setitem ret "marks" total
  else Ok ret.

(** ** Aggregation *)

Definition known_keys : list string :=
  [ "change_request_count"; "commit_count"; "completed_blueprint_count";
    "drafted_blueprint_count"; "email_count"; "filed_bug_count"; "loc";
    "marks"; "patch_set_count"; "resolved_bug_count";
    "abandoned_change_requests_count"; "translations" ].

(** The [ret = dict(change_request_count=0, ...)] literal. *)
Definition zero_record : pydict :=
  [ ("change_request_count", PInt 0); ("commit_count", PInt 0);
    ("completed_blueprint_count", PInt 0); ("drafted_blueprint_count", PInt 0);
    ("email_count", PInt 0); ("filed_bug_count", PInt 0); ("loc", PInt 0);
    ("marks", PInt 0); ("patch_set_count", PInt 0);
    ("resolved_bug_count", PInt 0);
    ("abandoned_change_requests_count", PInt 0); ("translations", PInt 0) ].

(** The inner loop [for key in contrib: ret[key] = ret[key] + contrib[key]],
    over the keys still to visit. *)
Fixpoint aggregate_keys (ret contrib : pydict) (keys : list string)
    : result pydict :=
  match keys with
  | [] => Ok ret
  | key :: keys' =>
      a ← dict_getitem ret key;
      b ← dict_getitem contrib key;
      s ← py_add a b;
      aggregate_keys (dict_set ret key s) contrib keys'
  end.

(** The outer loop [for contrib in contrib_list]. *)
Fixpoint aggregate_loop (ret : pydict) (contrib_list : list pydict)
    : result pydict :=
  match contrib_list with
  | [] => Ok ret
  | contrib :: rest =>
      ret' ← aggregate_keys ret contrib (dict_keys contrib);
      aggregate_loop ret' rest
  end.

Definition get_aggregate_contributions (contrib_list : list pydict)
    : result pydict :=
  aggregate_loop zero_record contrib_list.

(** ** Strings *)

(** The characters [str.strip()] removes: space, and tab to carriage return. *)
Definition is_space (c : ascii) : bool :=
  let n := nat_of_ascii c in
  Nat.eqb n 32 || (Nat.leb 9 n && Nat.leb n 13).

Fixpoint lstrip (s : string) : string :=
  match s with
  | EmptyString => EmptyString
  | String c s' => if is_space c then lstrip s' else s
  end.

Fixpoint rstrip (s : string) : string :=
  match s with
  | EmptyString => EmptyString
  | String c s' =>
      match rstrip s' with
      | EmptyString => if is_space c then EmptyString else String c EmptyString
      | t => String c t
      end
  end.

(** [s.strip()] *)
Definition strip (s : string) : string := rstrip (lstrip s).

Fixpoint str_index (s : string) (c : ascii) : option nat :=
  match s with
  | EmptyString => None
  | String a s' => if Ascii.eqb a c then Some 0 else S <$> str_index s' c
  end.

(** [s.find(c)]: the first position of [c], or -1. *)
Definition str_find (s : string) (c : ascii) : Z :=
  match str_index s c with
  | Some i => Z.of_nat i
  | None => (-1)%Z
  end.

(** [s[0:stop]]: a negative [stop] counts from the end, and both ends are
    clipped to the string. *)
Definition str_slice_to (s : string) (stop : Z) : string :=
  let n := Z.of_nat (String.length s) in
  let stop' := if (stop <? 0)%Z then Z.max 0 (n + stop) else Z.min stop n in
  String.substring 0 (Z.to_nat stop') s.

(** [s.split(sep)] for a one-character separator. *)
Fixpoint str_split (sep : ascii) (s : string) : list string :=
  match s with
  | EmptyString => [EmptyString]
  | String c s' =>
      if Ascii.eqb c sep then EmptyString :: str_split sep s'
      else match str_split sep s' with
           | t :: ts => String c t :: ts
           | [] => [String c EmptyString]
           end
  end.

(** [sep.join(l)] *)
Fixpoint str_join (sep : string) (l : list string) : string :=
  match l with
  | [] => ""
  | [x] => x
  | x :: l' => x +:+ sep +:+ str_join sep l'
  end.

Definition newline : ascii := ascii_of_nat 10.

(** The first line of a text, with its line terminator when it has one. *)
Fixpoint first_line (text : string) : string :=
  match text with
  | EmptyString => EmptyString
  | String c text' =>
      if Ascii.eqb c newline then String c EmptyString
      else String c (first_line text')
  end.

Definition starts_with_slash (s : string) : bool :=
  match s with
  | String c _ => Ascii.eqb c "/"
  | EmptyString => false
  end.

Fixpoint ends_with_slash (s : string) : bool :=
  match s with
  | EmptyString => false
  | String c EmptyString => Ascii.eqb c "/"
  | String _ s' => ends_with_slash s'
  end.

(** [os.path.join(a, b)] *)
Definition os_path_join (a b : string) : string :=
  if starts_with_slash b then b
  else if String.eqb a "" || ends_with_slash a then a +:+ b
  else a +:+ "/" +:+ b.

(** A byte string that decodes as ASCII: every byte is below 128. *)
Fixpoint is_ascii (s : string) : bool :=
  match s with
  | EmptyString => true
  | String c s' => Nat.ltb (nat_of_ascii c) 128 && is_ascii s'
  end.

(** The order [list.sort()] puts strings in. *)
Definition str_le (a b : string) : Prop := String.leb a b = true.

Global Instance str_le_dec : RelDecision str_le :=
  λ a b, decide (String.leb a b = true).

(** ** Output and input *)

(** What the script writes: a line of text, or the text [json.dumps]
    renders for a value with [indent=4, sort_keys=True]. *)
Inductive event : Type :=
| Print (s : string)
| PrintJson (v : pyval).

(** A computation that prints: what it wrote, and how it ended. *)
Inductive io (A : Type) : Type :=
| IO (out : list event) (res : result A).
Arguments IO {A} out res.

Definition io_out {A} (m : io A) : list event := let 'IO out _ := m in out.
Definition io_res {A} (m : io A) : result A := let 'IO _ res := m in res.

Global Instance io_ret : MRet io := λ A a, IO [] (Ok a).
Global Instance io_bind : MBind io := λ A B f m,
  match m with
  | IO out (Ok a) => let 'IO out' r := f a in IO (out ++ out') r
  | IO out (Raise e) => IO out (Raise e)
  end.

Definition lift {A} (r : result A) : io A := IO [] r.
Definition print (s : string) : io unit := IO [Print s] (Ok ()).

(** The outcome of opening a file and reading it: an I/O error with its
    text, or the content. *)
Inductive file_read : Type :=
| ReadError (msg : string)
| Content (text : string).

Definition filesystem := string → file_read.

(** ** File routines *)

Section Resolver.
(** The directory of the script ([os.path.dirname(__file__)]) and the
    files it can see. *)
Variable script_dir : string.
Variable fs : filesystem.

(** Reads the first line of a file and returns its comma-delimited
    tokens; [None] when the file has no line at all.  In the handler the
    message is formatted from the byte string [fn] and the unicode text
    [unicode(e)]: both are decoded as ASCII on the way, and a byte that is
    not ASCII raises [UnicodeDecodeError] before anything is printed. *)
Definition get_tokens (path : string) : io (option (list string)) :=
  let fn := os_path_join script_dir path in
  match fs fn with
  | ReadError msg =>
      if is_ascii fn && is_ascii msg then
        IO [Print ("Error reading file `" +:+ fn +:+ "`: " +:+ msg)]
           (Raise (SystemExit 1))
      else IO [] (Raise UnicodeDecodeError)
  | Content text =>
      match text with
      | EmptyString => mret None
      | _ => mret (Some (str_split "," (first_line text)))
      end
  end.

(** [for (key, value) in [x.split(':') for x in user_map_list]], each
    pair stripped. *)
Fixpoint unpack_pairs (parts : list (list string))
    : result (list (string * string)) :=
  match parts with
  | [] => Ok []
  | [key; value] :: rest =>
      ps ← unpack_pairs rest; Ok ((strip key, strip value) :: ps)
  | _ :: _ => Raise ValueError
  end.

(** [dict(pairs)]: a later pair replaces an earlier one with its key. *)
Definition dict_of_pairs (pairs : list (string * string)) : gmap string string :=
  foldl (λ m kv, <[kv.1 := kv.2]> m) ∅ pairs.

(** The alias table a token list denotes. *)
Definition parse_user_map (user_map_list : option (list string))
    : result (gmap string string) :=
  match user_map_list with
  | None => Raise TypeError
  | Some toks =>
      pairs ← unpack_pairs (str_split ":" <$> toks);
      Ok (dict_of_pairs pairs)
  end.

(** Returns the effective user name if a mapping is available. *)
Definition get_eff_user (user : string) (map_path : option string) : io string :=
  match map_path with
  | Some mp =>
      if negb (String.eqb mp "") then
        user_map_list ← get_tokens mp;
        user_map ← lift (parse_user_map user_map_list);
        mret (match user_map !! user with Some id => id | None => user end)
      else mret user
  | None => mret user
  end.

(** [email[0:email.find('@')].strip()] *)
Definition email_prefix (email : string) : string :=
  strip (str_slice_to email (str_find email "@")).

Fixpoint eff_users (emails : list string) (map_path : option string)
    : io (list string) :=
  match emails with
  | [] => mret []
  | email :: rest =>
      u ← get_eff_user (email_prefix email) map_path;
      us ← eff_users rest map_path;
      mret (u :: us)
  end.

Definition get_users_from_file (path : string) (map_path : option string)
    : io (list string) :=
  emails ← get_tokens path;
  match emails with
  | None => lift (Raise TypeError)
  | Some emails =>
      users ← eff_users emails map_path;
      mret (elements (list_to_set users : gset string))
  end.
End Resolver.

(** ** Display routines *)

Definition NO_DATA_MESSAGE : string :=
  "Could not find any OpenStack contribution data for that user.".

Definition DASHES : string := "----------------------------------------".

Definition nl : string := String newline EmptyString.

(** Common stat display method. *)
Definition display_stats (contrib_data : pyval) : io unit :=
  if truthy contrib_data then
    _ ← print "Contributions:";
    IO [PrintJson contrib_data] (Ok ())
  else print NO_DATA_MESSAGE.

(** The text printed above the aggregate: the identifiers without data. *)
Definition not_found_block (unknown : list string) : string :=
  DASHES +:+ nl +:+
  "Users not found on review.openstack.org:" +:+ nl +:+
  DASHES +:+ nl +:+
  str_join ", " unknown +:+ nl +:+
  DASHES.

Section Display.
Variable script_dir : string.
Variable fs : filesystem.
Variable net : remote.

(** Prints contribution data for the user and optional release. *)
Definition display_user_stats (user : string) (release : option string)
    : io unit :=
  contrib_data ← lift (get_contribution_for_user net user release);
  display_stats contrib_data.

(** The loop of [__display_aggregate_stats] over the users still to
    fetch, with the two lists it appends to.  The aggregator iterates over
    the keys of what it is given and is modelled on dicts; a truthy value
    returned by the fetcher is always a dict
    ([get_contribution_truthy_dict]), so the last branch is never taken. *)
Fixpoint collect_contributions (release : option string)
    (users unknown : list string) (contribs : list pydict)
    : result (list string * list pydict) :=
  match users with
  | [] => Ok (unknown, contribs)
  | user :: rest =>
      contrib ← get_contribution_for_user net user release;
      if negb (truthy contrib) then
        collect_contributions release rest (unknown ++ [user]) contribs
      else
        match contrib with
        | PDict d =>
            collect_contributions release rest unknown (contribs ++ [d])
        | _ => Raise TypeError
        end
  end.

(** Prints contribution data for all users and optional release. *)
Definition display_aggregate_stats
    (path : string) (map_path release : option string) : io unit :=
  users ← get_users_from_file script_dir fs path map_path;
  '(unknown, contribs) ← lift (collect_contributions release users [] []);
  let unknown := merge_sort str_le unknown in
  _ ← print (not_found_block unknown);
  total ← lift (get_aggregate_contributions contribs);
  display_stats (PDict total).
End Display.

(** ** Aggregation over a store of objects

    Python passes dicts by reference.  Here the aggregator runs on a heap
    of dict objects: [contrib_list] holds references, [ret = dict(...)]
    allocates a new object, and [ret[key] = ...] writes through [ret].
    Records are read through their references at each use, so a write to
    an object shows in every later read of it.  A Python reference is always
    live; the total lookup [h !!! l] is only ever meant at live references,
    and the properties below assume them live. *)

Abbreviation loc := positive.
Abbreviation heap := (gmap positive pydict).

Definition alloc (h : heap) (d : pydict) : loc * heap :=
  let l := fresh (dom h) in (l, <[l := d]> h).

Fixpoint aggregate_keys_h (h : heap) (ret contrib : loc) (keys : list string)
    : heap * result unit :=
  match keys with
  | [] => (h, Ok ())
  | key :: keys' =>
      match a ← dict_getitem (h !!! ret) key;
            b ← dict_getitem (h !!! contrib) key;
            py_add a b with
      | Ok s =>
          aggregate_keys_h (<[ret := dict_set (h !!! ret) key s]> h)
                           ret contrib keys'
      | Raise e => (h, Raise e)
      end
  end.

Fixpoint aggregate_loop_h (h : heap) (ret : loc) (contrib_list : list loc)
    : heap * result unit :=
  match contrib_list with
  | [] => (h, Ok ())
  | contrib :: rest =>
      match aggregate_keys_h h ret contrib (dict_keys (h !!! contrib)) with
      | (h', Ok _) => aggregate_loop_h h' ret rest
      | (h', Raise e) => (h', Raise e)
      end
  end.

Definition get_aggregate_contributions_h (h : heap) (contrib_list : list loc)
    : heap * result loc :=
  let '(ret, h0) := alloc h zero_record in
  match aggregate_loop_h h0 ret contrib_list with
  | (h', Ok _) => (h', Ok ret)
  | (h', Raise e) => (h', Raise e)
  end.

(** ** CLI application setup *)

(** The parsed command line: every parameter defaults to [None]. *)
Record params : Type := Params {
  param_user : option string;
  param_file : option string;
  param_map_file : option string;
  param_release : option string
}.

(** Prints an error message when unexpected input is received. *)
Definition display_unexpected_input : io unit := print "Unexpected input.".

(** [sys.exit(code)] *)
Definition sys_exit {A} (code : Z) : io A := IO [] (Raise (SystemExit code)).

(** A parameter that passes [if app.params.x:]: given, and not empty. *)
Definition given (o : option string) : option string :=
  match o with
  | Some s => if String.eqb s "" then None else Some s
  | None => None
  end.

(** The body of the command-line application. *)
Definition os_stats (script_dir : string) (fs : filesystem) (net : remote)
    (p : params) : io unit :=
  _ ← match given (param_user p) with
      | Some user => display_user_stats net user (param_release p)
      | None =>
          match given (param_file p) with
          | Some file =>
              display_aggregate_stats script_dir fs net file
                (param_map_file p) (param_release p)
          | None => display_unexpected_input
          end
      end;
  sys_exit 0.

(** * Vocabulary of the properties *)

(** The vote counts of a [marks] object, as JSON. *)
Definition votes_dict (votes : list (string * Z)) : pydict :=
  (λ kv, (kv.1, PInt kv.2)) <$> votes.

Definition sum_votes (votes : list (string * Z)) : Z := foldr Z.add 0%Z votes.*2.

(** The remote of the marks-collapsing example: one contribution object with the
    votes -1: 2 and 1: 5. *)
Definition net_votes : remote := λ _,
  Json (PDict [("contribution",
                PDict [("commit_count", PInt 4);
                       ("marks", PDict [("-1", PInt 2); ("1", PInt 5)]);
                       ("loc", PInt 100)])]).

(** A contribution object without [marks]. *)
Definition net_no_marks : remote := λ _,
  Json (PDict [("contribution", PDict [("commit_count", PInt 4)])]).

(** A record whose values are all integers. *)
Definition int_valued (r : pydict) : Prop :=
  Forall (λ kv, is_Some (as_int kv.2)) r.

Definition acc (ks : list string) (f : string → Z) : pydict :=
  (λ k, (k, PInt (f k))) <$> ks.

Definition upd (f : string → Z) (key : string) (z : Z) : string → Z :=
  λ k, if decide (k = key) then z else f k.

(** The integer a record holds under a key, if it holds one. *)
Definition key_int (contrib : pydict) (key : string) : option Z :=
  dict_get contrib key ≫= as_int.

(** What visiting [keys] adds to the total of [k]. *)
Fixpoint weight (contrib : pydict) (keys : list string) (k : string) : Z :=
  match keys with
  | [] => 0
  | key :: keys' =>
      (if decide (k = key) then default 0 (key_int contrib key) else 0)
      + weight contrib keys' k
  end%Z.

Definition ints_at (contrib : pydict) (keys : list string) : bool :=
  forallb (λ key, if key_int contrib key is Some _ then true else false) keys.

Definition record_weight (r : pydict) (k : string) : Z :=
  weight r (dict_keys r) k.

Definition total_weight (rs : list pydict) (k : string) : Z :=
  foldr (λ r s, record_weight r k + s)%Z 0%Z rs.

Definition int_record (r : pydict) : bool := ints_at r (dict_keys r).

(** The value a record contributes to a metric: what it holds under the
    key, 0 when the key is absent. *)
Definition metric (r : pydict) (k : string) : Z :=
  default 0%Z (dict_get r k ≫= as_int).

(** The sum of a metric over a list of records. *)
Definition total (rs : list pydict) (k : string) : Z :=
  foldr (λ r s, metric r k + s)%Z 0%Z rs.

(** A contribution record: a dict (distinct keys) over the known metric
    keys with integer values. *)
Definition contribution_record (r : pydict) : Prop :=
  NoDup (dict_keys r) ∧ dict_keys r ⊆ known_keys ∧ int_valued r.

(** Splits [Forall P [x1; ...; xn]] into [P x1], ..., [P xn]. *)
Ltac forall_list :=
  repeat first [apply Forall_nil_2 | apply Forall_cons_2].

(** Closes a decidable closed goal by evaluation. *)
Ltac by_compute := by apply (bool_decide_unpack _); vm_compute.

(** Two records of the known metrics, and one with a metric of its own. *)
Definition rec_a : pydict := [("commit_count", PInt 2); ("loc", PInt 10)].
Definition rec_b : pydict :=
  [("loc", PInt 5); ("commit_count", PInt 3); ("marks", PInt 0)].
Definition rec_new : pydict := [("commit_count", PInt 1); ("new_metric", PInt 1)].

(** A store with two records; the list passes the first one twice. *)
Definition heap_ab : heap := <[1%positive := rec_a]> (<[2%positive := rec_b]> ∅).

(** A user for whom the fetcher returns without data. *)
Definition no_data (net : remote) (release : option string) (user : string)
    : Prop :=
  ∃ v, get_contribution_for_user net user release = Ok v ∧ truthy v = false.

(** A directory with an e-mail list and an alias file, and one whose list
    has an entry without [@]. *)
Definition fs_example : filesystem := λ fn,
  if String.eqb fn "/opt/stats/emails.txt"
  then Content ("a@x.com, b@y.com,a@x.com" +:+ nl)
  else if String.eqb fn "/opt/stats/aliases.txt"
  then Content ("a : alice-id" +:+ nl)
  else if String.eqb fn "/opt/stats/no_at.txt"
  then Content ("bob,a@x.com" +:+ nl)
  else ReadError "[Errno 2] No such file or directory".

(** A remote that cannot be reached, and one that knows nobody. *)
Definition net_down : remote := λ _, ConnectionFailed.

(** The part of an address before its first [@] (the whole string when it
    has none). *)
Fixpoint before_at (email : string) : string :=
  match email with
  | EmptyString => EmptyString
  | String c email' =>
      if Ascii.eqb c "@" then EmptyString else String c (before_at email')
  end.

Definition has_at (email : string) : Prop := is_Some (str_index email "@").

(** An alias table applied to a prefix: the canonical id when the prefix is
    in the table, the prefix itself otherwise. *)
Definition resolve_alias (user_map : gmap string string) (prefix : string)
    : string :=
  match user_map !! prefix with
  | Some id => id
  | None => prefix
  end.

(** The alias table in force for a map path: empty without a path,
    otherwise the table parsed from the first line of the alias file. *)
Definition alias_loaded (script_dir : string) (fs : filesystem)
    (map_path : option string) (user_map : gmap string string) : Prop :=
  match map_path with
  | Some mp =>
      if String.eqb mp "" then user_map = ∅
      else ∃ text,
          fs (os_path_join script_dir mp) = Content text ∧
          text ≠ EmptyString ∧
          parse_user_map (Some (str_split "," (first_line text)))
          = Ok user_map
  | None => user_map = ∅
  end.

(** Whether the fetcher returns data for a user: the test of the loop of
    [__display_aggregate_stats], false too when the fetcher raises. *)
Definition has_data (net : remote) (release : option string) (user : string)
    : bool :=
  match get_contribution_for_user net user release with
  | Ok v => truthy v
  | Raise _ => false
  end.

(** A string [strip()] leaves as it is. *)
Definition trimmed (s : string) : Prop := strip s = s.

(** A string that does not start with a whitespace character. *)
Definition head_not_space (s : string) : Prop :=
  match s with
  | EmptyString => True
  | String c _ => is_space c = false
  end.

(** A string without a line terminator. *)
Definition no_newline (s : string) : Prop := str_index s newline = None.

(** An alias token that does not unpack into a key and a value. *)
Definition bad_alias_token (tok : string) : Prop :=
  length (str_split ":" tok) ≠ 2.

(** An event printed by [get_tokens] when a file cannot be read. *)
Definition is_error_print (ev : event) : Prop :=
  ∃ rest, ev = Print ("Error reading file `" +:+ rest).

(** A string without the character [c]. *)
Definition lacks (c : ascii) (s : string) : Prop := str_index s c = None.

(** A list of tokens with [suffix] appended to the last one. *)
Fixpoint with_suffix (toks : list string) (suffix : string) : list string :=
  match toks with
  | [] => []
  | [x] => [x +:+ suffix]
  | x :: toks' => x :: with_suffix toks' suffix
  end.

(** What follows the first line in a file: nothing when the file ends
    there, or a line terminator and the other lines. *)
Definition line_end (tail : string) : Prop :=
  tail = EmptyString ∨ ∃ rest, tail = nl +:+ rest.

(** An e-mail address as the list file holds it: with an [@], and without
    a comma or a line terminator. *)
Definition address (email : string) : Prop :=
  has_at email ∧ lacks "," email ∧ lacks newline email.

(** An alias entry, prefix and identifier: neither holds a colon, a comma
    or a line terminator. *)
Definition alias_entry (kv : string * string) : Prop :=
  (lacks ":" kv.1 ∧ lacks "," kv.1 ∧ lacks newline kv.1) ∧
  (lacks ":" kv.2 ∧ lacks "," kv.2 ∧ lacks newline kv.2).

(** An alias entry as written in the alias file, [prefix:id]. *)
Definition alias_token (kv : string * string) : string :=
  kv.1 +:+ ":" +:+ kv.2.

(** The line of an alias file that lists [entries]. *)
Definition alias_line (entries : list (string * string)) : string :=
  str_join "," (alias_token <$> entries).

(** An alias entry with both parts trimmed. *)
Definition trim_entry (kv : string * string) : string * string :=
  (strip kv.1, strip kv.2).

(** The alias table of a list of entries: trimmed prefix to trimmed
    identifier, a later entry replacing an earlier one for its prefix. *)
Definition alias_table (entries : list (string * string))
    : gmap string string :=
  list_to_map (reverse (trim_entry <$> entries)).

(** The entries the alias file lists on its first line; none without a map
    path. *)
Definition alias_file (script_dir : string) (fs : filesystem)
    (map_path : option string) (entries : list (string * string)) : Prop :=
  match map_path with
  | Some mp =>
      if String.eqb mp "" then entries = []
      else entries ≠ [] ∧ Forall alias_entry entries ∧
           ∃ tail, line_end tail ∧
                   fs (os_path_join script_dir mp)
                   = Content (alias_line entries +:+ tail)
  | None => entries = []
  end.

(** A value that is not a number: [None], a string, a list or a dict. *)
Definition not_a_number (v : pyval) : Prop :=
  match v with
  | PNone | PStr _ | PList _ | PDict _ => True
  | PBool _ | PInt _ => False
  end.

(** A handler followed by [sys.exit(0)]: its output, and [SystemExit 0]
    unless the handler raised. *)
Definition then_exit_0 (handler : io unit) : io unit :=
  IO (io_out handler)
     (match io_res handler with
      | Ok _ => Raise (SystemExit 0)
      | Raise e => Raise e
      end).

(** * Properties *)

(** ** Dictionaries *)

Lemma dict_get_set_eq d key v : dict_get (dict_set d key v) key = Some v.
Proof.
  induction d as [|[k w] d IH]; simpl.
  - by rewrite String.eqb_refl.
  - destruct (String.eqb_spec k key) as [->|Hne]; simpl.
    + by rewrite String.eqb_refl.
    + by destruct (String.eqb_spec k key).
Qed.

Lemma dict_get_set_ne d key key' v :
  key ≠ key' → dict_get (dict_set d key v) key' = dict_get d key'.
Proof.
  intros Hne. induction d as [|[k w] d IH]; simpl.
  - by destruct (String.eqb_spec key key').
  - destruct (String.eqb_spec k key) as [->|Hk]; simpl.
    + by destruct (String.eqb_spec key key').
    + by rewrite IH.
Qed.

Lemma dict_get_is_Some d key : key ∈ dict_keys d → is_Some (dict_get d key).
Proof.
  unfold dict_keys. induction d as [|[k w] d IH]; simpl.
  - by intros ?%elem_of_nil.
  - intros [->|Hin]%elem_of_cons.
    + rewrite String.eqb_refl. eauto.
    + destruct (String.eqb k key); eauto.
Qed.

Lemma dict_get_elem_of d key v : dict_get d key = Some v → (key, v) ∈ d.
Proof.
  induction d as [|[k w] d IH]; simpl; [done|].
  destruct (String.eqb_spec k key) as [->|Hne].
  - intros [= ->]. left.
  - intros ?. right. auto.
Qed.

Lemma dict_get_None d key : key ∉ dict_keys d → dict_get d key = None.
Proof.
  unfold dict_keys. induction d as [|[k w] d IH]; simpl; [done|].
  intros Hnin. apply not_elem_of_cons in Hnin as [Hne Hnin].
  destruct (String.eqb_spec k key); [congruence|auto].
Qed.

Lemma dict_keys_set d key v :
  is_Some (dict_get d key) → dict_keys (dict_set d key v) = dict_keys d.
Proof.
  unfold dict_keys. induction d as [|[k w] d IH]; simpl.
  - by intros [? ?].
  - destruct (String.eqb_spec k key) as [->|Hne]; simpl; [done|].
    intros H. f_equal. by apply IH.
Qed.

(** ** The contribution fetcher *)

Lemma py_getitem_is_Exception v key e :
  py_getitem v key = Raise e → is_Exception e = true.
Proof.
  destruct v; simpl; try by intros [= <-].
  unfold dict_getitem. destruct (dict_get d key); [done|]. by intros [= <-].
Qed.

(** The guarded expression only raises subclasses of [Exception]. *)
Lemma fetch_raw_is_Exception net url e :
  fetch_raw net url = Raise e → is_Exception e = true.
Proof.
  unfold fetch_raw, requests_get_json.
  destruct (net url); simpl; try by intros [= <-].
  apply py_getitem_is_Exception.
Qed.

(** The ways the guarded expression fails. *)
Lemma fetch_raw_fails net url :
  (∃ e, fetch_raw net url = Raise e) ↔
  net url = ConnectionFailed ∨ net url = BodyNotJson ∨
  (∃ j, net url = Json j ∧
        match j with
        | PDict d => dict_get d "contribution" = None
        | _ => True
        end).
Proof.
  unfold fetch_raw, requests_get_json. destruct (net url) as [| |j]; simpl.
  - split; eauto.
  - split; eauto.
  - split.
    + intros [e He]. right; right. exists j. split; [done|].
      destruct j; try done. simpl in He. unfold dict_getitem in He.
      by destruct (dict_get d "contribution").
    + intros [|[|(j' & [= <-] & Hj)]]; try done.
      destruct j; simpl; eauto. unfold dict_getitem. rewrite Hj. eauto.
Qed.

Lemma py_sum_from_ints (a : Z) (zs : list Z) :
  py_sum_from (PInt a) (PInt <$> zs) = Ok (PInt (a + foldr Z.add 0%Z zs)).
Proof.
  revert a. induction zs as [|z zs IH]; intros a; simpl.
  - by rewrite Z.add_0_r.
  - rewrite IH. by rewrite Z.add_assoc.
Qed.

(** A value the fetcher returns and the callers treat as data is a dict. *)
Lemma get_contribution_truthy_dict net user release v :
  get_contribution_for_user net user release = Ok v →
  truthy v = true → ∃ d, v = PDict d.
Proof.
  unfold get_contribution_for_user.
  destruct (try_except_Exception _ _) as [ret|e]; simpl; [|done].
  destruct (truthy ret) eqn:Ht.
  - destruct (py_getitem ret "marks") as [marks|]; simpl; [|done].
    destruct (py_values marks) as [vals|]; simpl; [|done].
    destruct (py_sum vals) as [total|]; simpl; [|done].
    destruct ret; simpl; try done. intros [= <-]. eauto.
  - intros [= <-]. congruence.
Qed.

Lemma votes_dict_values votes : (votes_dict votes).*2 = PInt <$> votes.*2.
Proof.
  unfold votes_dict. induction votes as [|[k n] votes IH]; [done|].
  simpl. by f_equal.
Qed.

(** C2, as amended: whenever the guarded expression
    [requests.get(url).json()['contribution']] fails (the request fails, the
    body is not JSON, the document is not an object or has no
    [contribution] field), the fetcher returns [None] and raises nothing. *)
Theorem fetch_failure_returns_absent net user release e :
  fetch_raw net (contribution_url user release) = Raise e →
  get_contribution_for_user net user release = Ok PNone.
Proof.
  intros He. unfold get_contribution_for_user. rewrite He. simpl.
  by rewrite (fetch_raw_is_Exception _ _ _ He).
Qed.

Lemma fetch_failure_returns_absent_witness :
  get_contribution_for_user (λ _, BodyNotJson) "jdoe" (Some "kilo") = Ok PNone.
Proof.
  apply (fetch_failure_returns_absent (λ _, BodyNotJson) "jdoe" (Some "kilo")
           ValueError).
  reflexivity.
Defined.

(** C2, as stated, fails: a non-empty contribution object lacking [marks]
    makes the fetcher raise [KeyError] instead of returning [None]. *)
Lemma fetch_without_marks_raises :
  fetch_raw net_no_marks (contribution_url "jdoe" None)
    = Ok (PDict [("commit_count", PInt 4)]) ∧
  get_contribution_for_user net_no_marks "jdoe" None = Raise (KeyError "marks") ∧
  get_contribution_for_user net_no_marks "jdoe" None ≠ Ok PNone.
Proof. by vm_compute. Qed.

(** C4: a non-empty contribution object whose [marks] maps votes to counts
    is returned with [marks] replaced by the sum of the counts; the keys and
    every other field are those of the raw object. *)
Theorem marks_collapsed net user release raw votes :
  fetch_raw net (contribution_url user release) = Ok (PDict raw) →
  raw ≠ [] →
  dict_get raw "marks" = Some (PDict (votes_dict votes)) →
  ∃ rec,
    get_contribution_for_user net user release = Ok (PDict rec) ∧
    rec = dict_set raw "marks" (PInt (sum_votes votes)) ∧
    dict_get rec "marks" = Some (PInt (sum_votes votes)) ∧
    dict_keys rec = dict_keys raw ∧
    ∀ key, key ≠ "marks" → dict_get rec key = dict_get raw key.
Proof.
  intros Hraw Hne Hmarks. eexists. split; [|split; [reflexivity|]].
  - unfold get_contribution_for_user. rewrite Hraw. simpl.
    destruct raw as [|kv raw]; [done|]. simpl py_getitem.
    unfold dict_getitem. rewrite Hmarks. simpl.
    unfold py_sum, sum_votes.
    by rewrite votes_dict_values, py_sum_from_ints.
  - split; [apply dict_get_set_eq|]. split.
    + apply dict_keys_set. rewrite Hmarks. eauto.
    + intros key Hkey. by apply dict_get_set_ne.
Qed.

Lemma marks_collapsed_witness :
  ∃ rec,
    get_contribution_for_user net_votes "jdoe" None = Ok (PDict rec) ∧
    rec = [("commit_count", PInt 4); ("marks", PInt 7); ("loc", PInt 100)] ∧
    dict_get rec "marks" = Some (PInt 7) ∧
    dict_keys rec = ["commit_count"; "marks"; "loc"] ∧
    ∀ key, key ≠ "marks" →
      dict_get rec key
      = dict_get [("commit_count", PInt 4);
                  ("marks", PDict [("-1", PInt 2); ("1", PInt 5)]);
                  ("loc", PInt 100)] key.
Proof.
  apply (marks_collapsed net_votes "jdoe" None
           [("commit_count", PInt 4);
            ("marks", PDict [("-1", PInt 2); ("1", PInt 5)]);
            ("loc", PInt 100)]
           [("-1", 2%Z); ("1", 5%Z)]).
  - reflexivity.
  - discriminate.
  - reflexivity.
Defined.

(** ** The aggregator *)

Lemma forallb_intro {A} (p : A → bool) (l : list A) :
  (∀ x, x ∈ l → p x = true) → forallb p l = true.
Proof.
  induction l as [|x l IH]; simpl; [done|]. intros Hl.
  rewrite (Hl x) by left. simpl. apply IH. intros y Hy. apply Hl. by right.
Qed.

Section Accumulator.
(** The running total is a dict over a fixed list of distinct keys with
    integer values: [acc ks f] holds [f k] under each key [k]. *)
Variable ks : list string.
Hypothesis ks_NoDup : NoDup ks.

Lemma acc_ext f g : (∀ k, k ∈ ks → f k = g k) → acc ks f = acc ks g.
Proof.
  intros Hfg. unfold acc. apply list_fmap_ext. intros i k Hk.
  rewrite (Hfg k); [done|]. by eapply list_elem_of_lookup_2.
Qed.

Lemma dict_keys_acc f : dict_keys (acc ks f) = ks.
Proof.
  unfold dict_keys, acc. rewrite <-list_fmap_compose.
  clear. induction ks as [|k l IH]; [done|]. simpl. by f_equal.
Qed.

Lemma dict_get_acc f key : key ∈ ks → dict_get (acc ks f) key = Some (PInt (f key)).
Proof.
  unfold acc. clear ks_NoDup. induction ks as [|k l IH]; simpl.
  - by intros ?%elem_of_nil.
  - destruct (String.eqb_spec k key) as [->|Hne]; [done|].
    intros [?|?]%elem_of_cons; [congruence|auto].
Qed.

Lemma dict_get_acc_None f key : key ∉ ks → dict_get (acc ks f) key = None.
Proof. intros. apply dict_get_None. by rewrite dict_keys_acc. Qed.

Lemma dict_set_acc f key z :
  key ∈ ks → dict_set (acc ks f) key (PInt z) = acc ks (upd f key z).
Proof.
  unfold acc, upd. induction ks_NoDup as [|k l Hk Hl IH]; simpl.
  - by intros ?%elem_of_nil.
  - destruct (String.eqb_spec k key) as [->|Hne].
    + intros _. rewrite decide_True by done. f_equal.
      apply list_fmap_ext. intros i k Hik.
      rewrite decide_False; [done|].
      intros ->. apply Hk. by eapply list_elem_of_lookup_2.
    + intros [?|?]%elem_of_cons; [congruence|].
      rewrite decide_False by done. f_equal. auto.
Qed.

Lemma py_add_int x v z : as_int v = Some z → py_add (PInt x) v = Ok (PInt (x + z)).
Proof. unfold py_add. simpl. by intros ->. Qed.

Lemma py_add_not_int x v : as_int v = None → py_add (PInt x) v = Raise TypeError.
Proof. unfold py_add. simpl. intros ->. by destruct v. Qed.

(** One step of the inner loop on a known key. *)
Lemma aggregate_keys_step f contrib key keys v :
  key ∈ ks → dict_get contrib key = Some v →
  aggregate_keys (acc ks f) contrib (key :: keys)
  = match as_int v with
    | Some z => aggregate_keys (acc ks (upd f key (f key + z))) contrib keys
    | None => Raise TypeError
    end.
Proof.
  intros Hkey Hv. simpl. unfold dict_getitem.
  rewrite (dict_get_acc _ _ Hkey), Hv. simpl.
  destruct (as_int v) as [z|] eqn:Hz.
  - rewrite (py_add_int _ _ _ Hz). simpl. by rewrite dict_set_acc.
  - by rewrite (py_add_not_int _ _ Hz).
Qed.

(** The inner loop over known keys: the sums, or [TypeError] when a
    value is not an integer. *)
Lemma aggregate_keys_known f contrib keys :
  Forall (λ key, key ∈ ks ∧ is_Some (dict_get contrib key)) keys →
  aggregate_keys (acc ks f) contrib keys
  = if ints_at contrib keys
    then Ok (acc ks (λ k, f k + weight contrib keys k)%Z)
    else Raise TypeError.
Proof.
  intros Hkeys. revert f.
  induction Hkeys as [|key keys [Hkey [v Hv]] _ IH]; intros f.
  - simpl. f_equal. apply acc_ext. intros. lia.
  - rewrite (aggregate_keys_step _ _ _ _ v Hkey Hv).
    unfold ints_at. simpl. fold (ints_at contrib keys).
    assert (key_int contrib key = as_int v) as Hki
      by (unfold key_int; by rewrite Hv).
    rewrite Hki. destruct (as_int v) as [z|] eqn:Hz; simpl; [|done].
    rewrite IH. destruct (ints_at contrib keys); [|done]. f_equal.
    apply acc_ext. intros k _. unfold upd. simpl.
    case_decide; simplify_eq; lia.
Qed.

(** The inner loop stops with [KeyError] at the first key it does not
    know, when the values before it are integers. *)
Lemma aggregate_keys_unknown f contrib keys :
  Forall (λ key, is_Some (key_int contrib key)) keys →
  Exists (λ key, key ∉ ks) keys →
  ∃ k, (k ∉ ks) ∧ aggregate_keys (acc ks f) contrib keys = Raise (KeyError k).
Proof.
  intros Hints. revert f.
  induction Hints as [|key keys [z Hz] _ IH]; intros f Hex.
  - by apply Exists_nil in Hex.
  - destruct (decide (key ∈ ks)) as [Hkey|Hkey].
    + apply Exists_cons in Hex as [?|Hex]; [done|].
      unfold key_int in Hz. destruct (dict_get contrib key) as [v|] eqn:Hv;
        [|done]. simpl in Hz.
      rewrite (aggregate_keys_step _ _ _ _ v Hkey Hv), Hz. by apply IH.
    + exists key. split; [done|]. simpl. unfold dict_getitem.
      by rewrite dict_get_acc_None.
Qed.

(** *** The outer loop *)

Lemma aggregate_loop_known f rs :
  Forall (λ r, dict_keys r ⊆ ks) rs →
  aggregate_loop (acc ks f) rs
  = if forallb int_record rs
    then Ok (acc ks (λ k, f k + total_weight rs k)%Z)
    else Raise TypeError.
Proof.
  intros Hrs. revert f. induction Hrs as [|r rs Hr _ IH]; intros f.
  - simpl. f_equal. apply acc_ext. intros. lia.
  - simpl. rewrite aggregate_keys_known.
    + fold (int_record r). destruct (int_record r); [|done]. simpl.
      rewrite IH. destruct (forallb int_record rs); [|done]. f_equal.
      apply acc_ext. intros k _. unfold record_weight. lia.
    + apply Forall_forall. intros key Hkey. split; [by apply Hr|].
      by apply dict_get_is_Some.
Qed.

Lemma total_weight_Permutation rs rs' k :
  rs ≡ₚ rs' → total_weight rs k = total_weight rs' k.
Proof. induction 1; simpl; lia. Qed.

Lemma forallb_Permutation {A} (p : A → bool) (l l' : list A) :
  l ≡ₚ l' → forallb p l = forallb p l'.
Proof.
  induction 1 as [|x l l' _ IH|x y l|l1 l2 l3 _ IH1 _ IH2]; simpl.
  - done.
  - by rewrite IH.
  - destruct (p x), (p y); done.
  - congruence.
Qed.

Lemma aggregate_loop_Permutation f rs rs' :
  rs ≡ₚ rs' →
  Forall (λ r, dict_keys r ⊆ ks) rs →
  aggregate_loop (acc ks f) rs = aggregate_loop (acc ks f) rs'.
Proof.
  intros Hp Hrs. rewrite !aggregate_loop_known; [|by rewrite <-Hp|done].
  rewrite (forallb_Permutation _ _ _ Hp).
  destruct (forallb int_record rs'); [|done]. f_equal.
  apply acc_ext. intros k _. by rewrite (total_weight_Permutation _ _ _ Hp).
Qed.

Lemma int_valued_key_int r key :
  int_valued r → key ∈ dict_keys r → is_Some (key_int r key).
Proof.
  intros Hr Hkey. destruct (dict_get_is_Some _ _ Hkey) as [v Hv].
  unfold key_int. rewrite Hv. simpl.
  apply dict_get_elem_of in Hv.
  by apply (proj1 (Forall_forall _ _) Hr (key, v)).
Qed.

Lemma int_valued_int_record r : int_valued r → int_record r = true.
Proof.
  intros Hr. unfold int_record, ints_at. apply forallb_intro.
  intros key Hkey. by destruct (int_valued_key_int _ _ Hr Hkey) as [z ->].
Qed.

Lemma aggregate_loop_unknown f rs :
  Forall int_valued rs →
  Exists (λ r, ∃ k, k ∈ dict_keys r ∧ k ∉ ks) rs →
  ∃ k, (k ∉ ks) ∧ aggregate_loop (acc ks f) rs = Raise (KeyError k).
Proof.
  intros Hints. revert f.
  induction Hints as [|r rs Hr _ IH]; intros f Hex.
  - by apply Exists_nil in Hex.
  - simpl. destruct (decide (Forall (λ key, key ∈ ks) (dict_keys r)))
      as [Hall|Hnot].
    + rewrite aggregate_keys_known.
      * fold (int_record r). rewrite (int_valued_int_record _ Hr). simpl.
        apply IH. apply Exists_cons in Hex as [(k & Hk & Hnk)|Hex]; [|done].
        destruct Hnk. by apply (proj1 (Forall_forall _ _) Hall).
      * apply Forall_forall. intros key Hkey. split.
        -- by apply (proj1 (Forall_forall _ _) Hall).
        -- by apply dict_get_is_Some.
    + apply not_Forall_Exists in Hnot; [|apply _].
      destruct (aggregate_keys_unknown f r (dict_keys r)) as (k & Hk & ->).
      * apply Forall_forall. intros key Hkey.
        by apply int_valued_key_int.
      * done.
      * exists k. by split.
Qed.

(** For a record with distinct keys, the inner loop adds the value held
    under each key once. *)
Lemma weight_NoDup contrib keys k :
  NoDup keys →
  weight contrib keys k
  = if decide (k ∈ keys) then default 0%Z (key_int contrib k) else 0%Z.
Proof.
  induction 1 as [|key keys Hkey _ IH].
  - done.
  - cbn [weight]. rewrite IH. destruct (decide (k = key)) as [->|Hne].
    + rewrite (decide_False (P := key ∈ keys)) by done.
      rewrite (decide_True (P := key ∈ key :: keys)) by left. lia.
    + destruct (decide (k ∈ keys)).
      * rewrite (decide_True (P := k ∈ key :: keys)) by (by right). lia.
      * rewrite (decide_False (P := k ∈ key :: keys)); [lia|].
        by intros [?|?]%elem_of_cons.
Qed.
End Accumulator.

Lemma known_keys_NoDup : NoDup known_keys.
Proof. by apply (bool_decide_unpack _); vm_compute. Qed.

Lemma zero_record_acc : zero_record = acc known_keys (λ _, 0%Z).
Proof. reflexivity. Qed.

Lemma record_weight_metric r k :
  NoDup (dict_keys r) → record_weight r k = metric r k.
Proof.
  intros Hr. unfold record_weight, metric. rewrite weight_NoDup by done.
  case_decide as Hk; [done|]. by rewrite dict_get_None.
Qed.

Lemma total_weight_total rs k :
  Forall (λ r, NoDup (dict_keys r)) rs → total_weight rs k = total rs k.
Proof.
  induction 1 as [|r rs Hr _ IH]; simpl; [done|].
  by rewrite IH, record_weight_metric.
Qed.

(** C5: on records whose keys are all known, the aggregate of a list and of
    any permutation of it are the same result. *)
Theorem aggregate_permutation_invariant (rs rs' : list pydict) :
  rs ≡ₚ rs' →
  Forall (λ r, dict_keys r ⊆ known_keys) rs →
  get_aggregate_contributions rs = get_aggregate_contributions rs'.
Proof.
  intros Hp Hrs. unfold get_aggregate_contributions. rewrite zero_record_acc.
  by apply (aggregate_loop_Permutation _ known_keys_NoDup).
Qed.

(** C6: the aggregate of contribution records has exactly the twelve known
    keys, each holding the sum of that metric over the records (0 for a
    record without the key); the aggregate of no record is the zero record. *)
Theorem aggregate_sums_metrics (rs : list pydict) :
  Forall contribution_record rs →
  ∃ ret,
    get_aggregate_contributions rs = Ok ret ∧
    dict_keys ret = known_keys ∧
    length ret = 12 ∧
    (∀ k, k ∈ known_keys → dict_get ret k = Some (PInt (total rs k))) ∧
    (rs = [] → ret = zero_record).
Proof.
  intros Hrs. exists (acc known_keys (total rs)).
  assert (get_aggregate_contributions rs = Ok (acc known_keys (total rs)))
    as Hagg.
  { unfold get_aggregate_contributions. rewrite zero_record_acc.
    rewrite (aggregate_loop_known _ known_keys_NoDup).
    - replace (forallb int_record rs) with true.
      + f_equal. apply acc_ext. intros k _. rewrite total_weight_total; [lia|].
        eapply Forall_impl; [exact Hrs|]. by intros r (? & _).
      + symmetry. apply forallb_intro. intros r Hr.
        apply int_valued_int_record.
        by apply (proj1 (Forall_forall _ _) Hrs r) in Hr as (_ & _ & ?).
    - eapply Forall_impl; [exact Hrs|]. by intros r (_ & ? & _). }
  split; [done|]. split; [apply dict_keys_acc|]. split; [done|]. split.
  - intros k Hk. by apply dict_get_acc.
  - by intros ->.
Qed.

(** C7: when the records hold integers and one of them has a key outside
    the known set, aggregation raises [KeyError] on such a key; no handler
    in the aggregator catches it. *)
Theorem aggregate_unknown_key_raises (rs : list pydict) :
  Forall int_valued rs →
  Exists (λ r, ∃ k, k ∈ dict_keys r ∧ k ∉ known_keys) rs →
  ∃ k, (k ∉ known_keys) ∧ get_aggregate_contributions rs = Raise (KeyError k).
Proof.
  intros Hints Hex. unfold get_aggregate_contributions.
  rewrite zero_record_acc.
  by apply (aggregate_loop_unknown _ known_keys_NoDup).
Qed.

Lemma rec_a_record : contribution_record rec_a.
Proof.
  split; [|split]; unfold int_valued; by_compute.
Defined.

Lemma rec_b_record : contribution_record rec_b.
Proof.
  split; [|split]; unfold int_valued; by_compute.
Defined.

Example aggregate_two_records :
  get_aggregate_contributions [rec_a; rec_b]
  = Ok [ ("change_request_count", PInt 0); ("commit_count", PInt 5);
         ("completed_blueprint_count", PInt 0);
         ("drafted_blueprint_count", PInt 0); ("email_count", PInt 0);
         ("filed_bug_count", PInt 0); ("loc", PInt 15); ("marks", PInt 0);
         ("patch_set_count", PInt 0); ("resolved_bug_count", PInt 0);
         ("abandoned_change_requests_count", PInt 0); ("translations", PInt 0) ].
Proof. reflexivity. Qed.

Example aggregate_new_metric :
  get_aggregate_contributions [rec_a; rec_new] = Raise (KeyError "new_metric").
Proof. reflexivity. Qed.

Lemma aggregate_permutation_invariant_witness :
  get_aggregate_contributions [rec_a; rec_b]
  = get_aggregate_contributions [rec_b; rec_a].
Proof.
  apply (aggregate_permutation_invariant [rec_a; rec_b] [rec_b; rec_a]).
  - apply perm_swap.
  - forall_list; by_compute.
Defined.

Lemma aggregate_sums_metrics_witness :
  ∃ ret,
    get_aggregate_contributions [rec_a; rec_b] = Ok ret ∧
    dict_keys ret = known_keys ∧
    length ret = 12 ∧
    (∀ k, k ∈ known_keys → dict_get ret k = Some (PInt (total [rec_a; rec_b] k))) ∧
    ([rec_a; rec_b] = [] → ret = zero_record).
Proof.
  apply (aggregate_sums_metrics [rec_a; rec_b]).
  forall_list; [apply rec_a_record | apply rec_b_record].
Defined.

Lemma aggregate_unknown_key_raises_witness :
  ∃ k, (k ∉ known_keys) ∧
       get_aggregate_contributions [rec_a; rec_new] = Raise (KeyError k).
Proof.
  apply (aggregate_unknown_key_raises [rec_a; rec_new]).
  - forall_list; unfold int_valued; by_compute.
  - apply Exists_cons_tl, Exists_cons_hd. exists "new_metric".
    split; by_compute.
Defined.

(** ** The aggregator on the store *)

Lemma aggregate_keys_h_frame h ret contrib keys l :
  l ≠ ret → (aggregate_keys_h h ret contrib keys).1 !! l = h !! l.
Proof.
  intros Hl. revert h. induction keys as [|key keys IH]; intros h; [done|].
  simpl. destruct (_ ≫= _) as [s|e]; [|done].
  rewrite IH. by apply lookup_insert_ne.
Qed.

Lemma aggregate_loop_h_frame h ret contrib_list l :
  l ≠ ret → (aggregate_loop_h h ret contrib_list).1 !! l = h !! l.
Proof.
  intros Hl. revert h.
  induction contrib_list as [|contrib rest IH]; intros h; [done|].
  simpl. pose proof (aggregate_keys_h_frame h ret contrib
                       (dict_keys (h !!! contrib)) l Hl) as Hframe.
  destruct (aggregate_keys_h _ _ _ _) as [h' [[]|e]]; simpl in *.
  - by rewrite IH.
  - done.
Qed.

(** Every object that exists before the call is the same after it: the
    only object written is the one the call allocates. *)
Lemma get_aggregate_contributions_h_frame h contrib_list l :
  is_Some (h !! l) →
  (get_aggregate_contributions_h h contrib_list).1 !! l = h !! l.
Proof.
  intros Hl. unfold get_aggregate_contributions_h, alloc.
  assert (l ≠ fresh (dom h)) as Hne.
  { intros ->. apply (is_fresh (dom h)). by apply elem_of_dom. }
  pose proof (aggregate_loop_h_frame (<[fresh (dom h) := zero_record]> h)
                (fresh (dom h)) contrib_list l Hne) as Hframe.
  destruct (aggregate_loop_h _ _ _) as [h' [[]|e]]; simpl in *;
    by rewrite Hframe, lookup_insert_ne.
Qed.

(** C9: the records passed to the aggregator are unchanged by the call,
    whether it returns or raises. *)
Theorem aggregate_preserves_inputs (h : heap) (contrib_list : list loc) :
  Forall (λ contrib, is_Some (h !! contrib)) contrib_list →
  Forall (λ contrib,
            (get_aggregate_contributions_h h contrib_list).1 !! contrib
            = h !! contrib) contrib_list.
Proof.
  intros Hlive. eapply Forall_impl; [exact Hlive|].
  intros contrib Hc. by apply get_aggregate_contributions_h_frame.
Qed.

Lemma aggregate_preserves_inputs_witness :
  Forall (λ contrib,
            (get_aggregate_contributions_h heap_ab [1; 2; 1]%positive).1 !! contrib
            = heap_ab !! contrib) [1; 2; 1]%positive.
Proof.
  apply (aggregate_preserves_inputs heap_ab [1; 2; 1]%positive).
  forall_list; by_compute.
Defined.

(** *** The store-level aggregator computes the functional one *)

Lemma aggregate_keys_h_refines h ret contrib keys :
  ret ≠ contrib →
  match aggregate_keys_h h ret contrib keys with
  | (h', Ok _) =>
      aggregate_keys (h !!! ret) (h !!! contrib) keys = Ok (h' !!! ret)
  | (_, Raise e) =>
      aggregate_keys (h !!! ret) (h !!! contrib) keys = Raise e
  end.
Proof.
  intros Hne. revert h. induction keys as [|key keys IH]; intros h; [done|].
  simpl. destruct (dict_getitem (h !!! ret) key) as [a|]; simpl; [|done].
  destruct (dict_getitem (h !!! contrib) key) as [b|]; simpl; [|done].
  destruct (py_add a b) as [s|]; simpl; [|done].
  specialize (IH (<[ret := dict_set (h !!! ret) key s]> h)).
  by rewrite lookup_total_insert_eq, lookup_total_insert_ne in IH.
Qed.

Lemma aggregate_loop_h_refines h ret contrib_list :
  ret ∉ contrib_list →
  match aggregate_loop_h h ret contrib_list with
  | (h', Ok _) =>
      aggregate_loop (h !!! ret) ((h !!!.) <$> contrib_list) = Ok (h' !!! ret)
  | (_, Raise e) =>
      aggregate_loop (h !!! ret) ((h !!!.) <$> contrib_list) = Raise e
  end.
Proof.
  revert h. induction contrib_list as [|contrib rest IH]; intros h Hret;
    [done|].
  apply not_elem_of_cons in Hret as [Hne Hret]. simpl.
  pose proof (aggregate_keys_h_refines h ret contrib
                (dict_keys (h !!! contrib)) Hne) as Hkeys.
  pose proof (λ l, aggregate_keys_h_frame h ret contrib
                (dict_keys (h !!! contrib)) l) as Hframe.
  destruct (aggregate_keys_h _ _ _ _) as [h1 [[]|e]]; simpl in *.
  - rewrite Hkeys. simpl. specialize (IH h1 Hret).
    replace ((h1 !!!.) <$> rest) with ((h !!!.) <$> rest) in IH; [done|].
    apply list_fmap_ext. intros i l Hl.
    unfold lookup_total, map_lookup_total. rewrite Hframe; [done|].
    intros ->. apply Hret. by eapply list_elem_of_lookup_2.
  - by rewrite Hkeys.
Qed.

(** On live references the store-level aggregator returns a reference to
    the record the functional aggregator computes from the referenced
    records, and raises what it raises. *)
Lemma get_aggregate_contributions_h_refines h contrib_list :
  Forall (λ contrib, is_Some (h !! contrib)) contrib_list →
  match get_aggregate_contributions_h h contrib_list with
  | (h', Ok ret) =>
      get_aggregate_contributions ((h !!!.) <$> contrib_list) = Ok (h' !!! ret)
  | (_, Raise e) =>
      get_aggregate_contributions ((h !!!.) <$> contrib_list) = Raise e
  end.
Proof.
  intros Hlive. unfold get_aggregate_contributions_h, alloc.
  set (ret := fresh (dom h)). set (h0 := <[ret := zero_record]> h).
  assert (ret ∉ contrib_list) as Hret.
  { intros Hin. apply (proj1 (Forall_forall _ _) Hlive) in Hin.
    apply (is_fresh (dom h)). by apply elem_of_dom. }
  pose proof (aggregate_loop_h_refines h0 ret contrib_list Hret) as Hloop.
  assert (h0 !!! ret = zero_record) as Hzero
    by apply lookup_total_insert_eq.
  assert ((h0 !!!.) <$> contrib_list = (h !!!.) <$> contrib_list) as Hsame.
  { apply list_fmap_ext. intros i l Hl. apply lookup_total_insert_ne.
    intros <-. apply Hret. by eapply list_elem_of_lookup_2. }
  rewrite Hzero, Hsame in Hloop. unfold get_aggregate_contributions.
  by destruct (aggregate_loop_h _ _ _) as [h' [[]|e]].
Qed.

(** ** The display routines *)

Section DisplayProperties.
Variable script_dir : string.
Variable fs : filesystem.
Variable net : remote.

Lemma collect_contributions_no_data release user rest unknown contribs :
  no_data net release user →
  collect_contributions net release (user :: rest) unknown contribs
  = collect_contributions net release rest (unknown ++ [user]) contribs.
Proof. intros (v & Hv & Ht). simpl. rewrite Hv. simpl. by rewrite Ht. Qed.

Lemma collect_contributions_all_unknown release users unknown contribs :
  Forall (no_data net release) users →
  collect_contributions net release users unknown contribs
  = Ok ((unknown ++ users)%list, contribs).
Proof.
  intros Hall. revert unknown.
  induction Hall as [|user rest Hu _ IH]; intros unknown.
  - simpl. by rewrite app_nil_r.
  - rewrite collect_contributions_no_data by done.
    rewrite IH. by rewrite <-app_assoc.
Qed.



(** An error of the aggregator is not handled by its caller: aggregate
    mode ends with it, after the "not found" block. *)
Lemma display_aggregate_stats_propagates
    path map_path release out users unknown contribs e :
  get_users_from_file script_dir fs path map_path = IO out (Ok users) →
  collect_contributions net release users [] [] = Ok (unknown, contribs) →
  get_aggregate_contributions contribs = Raise e →
  display_aggregate_stats script_dir fs net path map_path release
  = IO (out ++ [Print (not_found_block (merge_sort str_le unknown))])
       (Raise e).
Proof.
  intros Husers Hc He. unfold display_aggregate_stats. rewrite Husers.
  cbn [mbind io_bind]. rewrite Hc. cbn. by rewrite He.
Qed.

(** C1, as amended: in aggregate mode, when every resolved identifier
    yields no data, the reporter prints the sorted identifiers in the
    "not found" block and then the header and the all-zero aggregate
    record. *)
Theorem aggregate_mode_all_unknown path map_path release out users :
  get_users_from_file script_dir fs path map_path = IO out (Ok users) →
  Forall (no_data net release) users →
  display_aggregate_stats script_dir fs net path map_path release
  = IO (out ++ [ Print (not_found_block (merge_sort str_le users));
                 Print "Contributions:";
                 PrintJson (PDict zero_record) ])
       (Ok ()).
Proof.
  intros Husers Hall. unfold display_aggregate_stats. rewrite Husers.
  cbn [mbind io_bind].
  rewrite collect_contributions_all_unknown by done. reflexivity.
Qed.

End DisplayProperties.

Lemma net_down_no_data release user : no_data net_down release user.
Proof. by exists PNone. Qed.

Lemma aggregate_mode_all_unknown_witness :
  display_aggregate_stats "/opt/stats" fs_example net_down "emails.txt" None None
  = IO ([] ++ [ Print (not_found_block (merge_sort str_le ["a"; "b"]));
                Print "Contributions:";
                PrintJson (PDict zero_record) ])
       (Ok ()).
Proof.
  apply (aggregate_mode_all_unknown "/opt/stats" fs_example net_down
           "emails.txt" None None [] ["a"; "b"]).
  - by vm_compute.
  - forall_list; apply net_down_no_data.
Defined.

(** C1, as stated, fails: with no record found, aggregate mode prints the
    zero record under the header, and the "no data" message is not printed. *)
Lemma aggregate_mode_prints_zero_record :
  collect_contributions net_down None ["a"; "b"] [] [] = Ok (["a"; "b"], []) ∧
  io_out (display_aggregate_stats "/opt/stats" fs_example net_down
            "emails.txt" None None)
  = [ Print (not_found_block ["a"; "b"]);
      Print "Contributions:";
      PrintJson (PDict zero_record) ] ∧
  Print NO_DATA_MESSAGE
    ∉ io_out (display_aggregate_stats "/opt/stats" fs_example net_down
                "emails.txt" None None).
Proof.
  split; [by vm_compute|]. split; [by vm_compute|].
  intros Hin. vm_compute in Hin.
  repeat (apply elem_of_cons in Hin as [Hin|Hin]; [discriminate|]).
  by apply elem_of_nil in Hin.
Qed.


(** ** The identity resolver *)

Lemma str_index_lt s c i : str_index s c = Some i → i < String.length s.
Proof.
  revert i. induction s as [|a s IH]; intros i; simpl; [done|].
  destruct (Ascii.eqb a c).
  - intros [= <-]. lia.
  - destruct (str_index s c) as [i'|]; simpl; [|done].
    intros [= <-]. specialize (IH i' eq_refl). lia.
Qed.

Lemma substring_before_at s i :
  str_index s "@" = Some i → String.substring 0 i s = before_at s.
Proof.
  revert i. induction s as [|a s IH]; intros i; simpl; [done|].
  destruct (Ascii.eqb a "@").
  - by intros [= <-].
  - destruct (str_index s "@") as [i'|]; simpl; [|done].
    intros [= <-]. by rewrite (IH i').
Qed.

(** With an [@], the slice is the part before the first [@]. *)
Lemma email_prefix_has_at email :
  has_at email → email_prefix email = strip (before_at email).
Proof.
  intros [i Hi]. unfold email_prefix, str_find, str_slice_to. rewrite Hi.
  pose proof (str_index_lt _ _ _ Hi).
  rewrite (proj2 (Z.ltb_ge _ _)) by lia.
  rewrite Z.min_l by lia. rewrite Nat2Z.id.
  by rewrite (substring_before_at _ _ Hi).
Qed.

(** Without an [@], [find] answers -1 and the slice [email[0:-1]] drops the
    last character. *)
Lemma email_prefix_no_at email :
  str_index email "@" = None →
  email_prefix email
  = strip (String.substring 0 (String.length email - 1) email).
Proof.
  intros Hi. unfold email_prefix, str_find, str_slice_to. rewrite Hi.
  cbv zeta. change (-1 <? 0)%Z with true. cbv iota. do 2 f_equal. lia.
Qed.

(** C3 fails on the code: for an entry without [@] the identifier is the
    entry without its last character, not the whole trimmed entry.  From the
    list [bob,a@x.com] the resolver yields [bo] and [a]. *)
Theorem email_without_at_loses_last_character :
  str_index "bob" "@" = None ∧
  email_prefix "bob" = "bo" ∧
  strip "bob" = "bob" ∧
  get_users_from_file "/opt/stats" fs_example "no_at.txt" None
  = IO [] (Ok ["a"; "bo"]).
Proof. by vm_compute. Qed.

(** *** Lines, tokens and their parts *)

Lemma str_join_cons_cons sep x y l :
  str_join sep (x :: y :: l) = x +:+ sep +:+ str_join sep (y :: l).
Proof. reflexivity. Qed.

Lemma first_line_app l rest :
  no_newline l → first_line (l +:+ nl +:+ rest) = l +:+ nl.
Proof.
  unfold no_newline. induction l as [|c l IH]; simpl.
  - done.
  - destruct (Ascii.eqb c newline); [done|].
    destruct (str_index l newline) eqn:Hl; [done|]. intros _.
    by rewrite IH.
Qed.

Lemma first_line_lacks l : lacks newline l → first_line l = l.
Proof.
  unfold lacks. induction l as [|c l IH]; simpl; [done|].
  destruct (Ascii.eqb c newline); [done|].
  destruct (str_index l newline) eqn:Hl; [done|]. intros _. by rewrite IH.
Qed.

Lemma str_app_cons c s t : String c s +:+ t = String c (s +:+ t).
Proof. reflexivity. Qed.

Lemma str_app_nil_r s : s +:+ "" = s.
Proof.
  induction s as [|c s IH]; [done|]. by rewrite str_app_cons, IH.
Qed.

Lemma str_app_assoc a b c : (a +:+ b) +:+ c = a +:+ b +:+ c.
Proof.
  induction a as [|x a IH]; [done|]. by rewrite !str_app_cons, IH.
Qed.

Lemma str_app_eq_nil a b : a +:+ b = "" → a = "" ∧ b = "".
Proof. by destruct a. Qed.

Lemma lacks_cons c x s : lacks c (String x s) ↔ Ascii.eqb x c = false ∧ lacks c s.
Proof.
  unfold lacks. simpl. destruct (Ascii.eqb x c); [by split; [|intros []]|].
  destruct (str_index s c); simpl; split; try done; by intros [].
Qed.

Lemma lacks_app c a b : lacks c a → lacks c b → lacks c (a +:+ b).
Proof.
  intros Ha Hb. induction a as [|x a IH]; [done|].
  apply lacks_cons in Ha as [Hx Ha]. rewrite str_app_cons.
  apply lacks_cons. auto.
Qed.

(** The first line of a text that is a newline-free line and what follows
    it: the line, with its terminator when there is one. *)
Lemma first_line_tail l tail :
  lacks newline l → line_end tail →
  ∃ suffix, first_line (l +:+ tail) = l +:+ suffix ∧ (suffix = "" ∨ suffix = nl).
Proof.
  intros Hl [->|[rest ->]].
  - exists "". rewrite str_app_nil_r. split; [by apply first_line_lacks|by left].
  - exists nl. split; [by apply first_line_app|by right].
Qed.

Lemma str_split_lacks sep s : lacks sep s → str_split sep s = [s].
Proof.
  induction s as [|c s IH]; simpl; [done|].
  intros [Hc Hs]%lacks_cons. rewrite Hc. by rewrite IH.
Qed.

Lemma str_split_app sep x s t ts :
  lacks sep x → str_split sep s = t :: ts →
  str_split sep (x +:+ s) = (x +:+ t) :: ts.
Proof.
  intros Hx Hs. induction x as [|c x IH]; [done|].
  apply lacks_cons in Hx as [Hc Hx]. rewrite str_app_cons.
  cbn [str_split]. rewrite Hc. by rewrite IH.
Qed.

Lemma str_split_sep sep s : str_split sep (String sep s) = "" :: str_split sep s.
Proof. simpl. by rewrite Ascii.eqb_refl. Qed.

(** Splitting a line of joined tokens, with something appended that holds
    no separator, gives the tokens back, the last one with what was
    appended. *)
Lemma str_split_join sep toks suffix :
  toks ≠ [] → Forall (lacks sep) toks → lacks sep suffix →
  str_split sep (str_join (String sep "") toks +:+ suffix)
  = with_suffix toks suffix.
Proof.
  intros Hne Htoks Hsuffix. induction Htoks as [|x toks Hx Htoks IH]; [done|].
  destruct toks as [|y toks].
  - simpl. by apply str_split_lacks, lacks_app.
  - rewrite str_join_cons_cons, !str_app_assoc.
    change (String sep "" +:+ str_join (String sep "") (y :: toks) +:+ suffix)
      with (String sep (str_join (String sep "") (y :: toks) +:+ suffix)).
    rewrite (str_split_app sep x _ ""
               (str_split sep (str_join (String sep "") (y :: toks) +:+ suffix)));
      [|done|apply str_split_sep].
    rewrite str_app_nil_r, IH by done. reflexivity.
Qed.

Lemma str_join_lacks c sep toks :
  Ascii.eqb sep c = false → Forall (lacks c) toks →
  lacks c (str_join (String sep "") toks).
Proof.
  intros Hsep Htoks. induction Htoks as [|x toks Hx Htoks IH]; [done|].
  destruct toks as [|y toks]; [done|].
  rewrite str_join_cons_cons. apply lacks_app; [done|].
  apply lacks_cons. by split.
Qed.

Lemma str_index_app s t c i :
  str_index s c = Some i → str_index (s +:+ t) c = Some i.
Proof.
  revert i. induction s as [|a s IH]; intros i; [done|].
  rewrite str_app_cons. cbn [str_index].
  destruct (Ascii.eqb a c); [done|].
  destruct (str_index s c) as [j|]; simpl; [|done].
  intros [= <-]. by rewrite (IH j).
Qed.

Lemma before_at_app s t : has_at s → before_at (s +:+ t) = before_at s.
Proof.
  intros [i Hi]. revert i Hi. induction s as [|a s IH]; intros i; [done|].
  rewrite str_app_cons. cbn [before_at str_index].
  destruct (Ascii.eqb a "@"); [done|].
  destruct (str_index s "@") as [j|]; simpl; [|done].
  intros _. by rewrite (IH j).
Qed.

(** What is appended to an address plays no part in its identifier. *)
Lemma email_prefix_app email suffix :
  has_at email → email_prefix (email +:+ suffix) = strip (before_at email).
Proof.
  intros Hat. rewrite email_prefix_has_at.
  - by rewrite before_at_app.
  - destruct Hat as [i Hi]. exists i. by apply str_index_app.
Qed.

Lemma email_prefix_with_suffix (f : string → string) emails suffix :
  Forall has_at emails →
  (λ email, f (email_prefix email)) <$> with_suffix emails suffix
  = (λ email, f (strip (before_at email))) <$> emails.
Proof.
  induction 1 as [|email emails Hat Hats IH]; [done|].
  destruct emails as [|email' emails].
  - simpl. by rewrite email_prefix_app.
  - change (with_suffix (email :: email' :: emails) suffix)
      with (email :: with_suffix (email' :: emails) suffix).
    rewrite !fmap_cons, IH. f_equal.
    rewrite <-(str_app_nil_r email) at 1. by rewrite email_prefix_app.
Qed.

Lemma rstrip_nl s : rstrip (s +:+ nl) = rstrip s.
Proof.
  induction s as [|c s IH]; [done|].
  rewrite str_app_cons. cbn [rstrip]. by rewrite IH.
Qed.

Lemma strip_nl s : strip (s +:+ nl) = strip s.
Proof.
  unfold strip. induction s as [|c s IH]; [done|].
  rewrite str_app_cons. cbn [lstrip].
  destruct (is_space c); [done|].
  rewrite <-str_app_cons. apply rstrip_nl.
Qed.

Lemma strip_suffix s suffix :
  suffix = "" ∨ suffix = nl → strip (s +:+ suffix) = strip s.
Proof. intros [->| ->]; [by rewrite str_app_nil_r|apply strip_nl]. Qed.

Lemma alias_token_split kv suffix :
  alias_entry kv → suffix = "" ∨ suffix = nl →
  str_split ":" (alias_token kv +:+ suffix) = [kv.1; kv.2 +:+ suffix].
Proof.
  intros [(Hk & _) (Hv & _)] Hsuffix.
  apply (str_split_join ":" [kv.1; kv.2] suffix); [done| |].
  - by apply Forall_cons_2; [|apply Forall_cons_2; [|apply Forall_nil_2]].
  - by destruct Hsuffix as [->| ->].
Qed.

(** The pairs unpacked from the tokens of an alias line are its entries,
    trimmed. *)
Lemma unpack_pairs_alias entries suffix :
  Forall alias_entry entries → suffix = "" ∨ suffix = nl →
  unpack_pairs (str_split ":" <$> with_suffix (alias_token <$> entries) suffix)
  = Ok (trim_entry <$> entries).
Proof.
  intros Hentries Hsuffix.
  induction Hentries as [|kv entries Hkv Hentries IH]; [done|].
  destruct entries as [|kv' entries].
  - simpl. rewrite (alias_token_split _ _ Hkv Hsuffix). simpl.
    unfold trim_entry. by rewrite (strip_suffix _ _ Hsuffix).
  - change (with_suffix (alias_token <$> kv :: kv' :: entries) suffix)
      with (alias_token kv
              :: with_suffix (alias_token <$> kv' :: entries) suffix).
    rewrite fmap_cons. rewrite <-(str_app_nil_r (alias_token kv)).
    rewrite (alias_token_split _ "" Hkv) by (by left).
    cbn [unpack_pairs]. rewrite IH. simpl. by rewrite str_app_nil_r.
Qed.

Lemma dict_of_pairs_reverse pairs :
  dict_of_pairs pairs = list_to_map (reverse pairs).
Proof.
  unfold dict_of_pairs. induction pairs as [|kv pairs IH] using rev_ind;
    [done|].
  rewrite foldl_app, reverse_app. simpl. by rewrite IH.
Qed.

Lemma lacks_alias_token c kv :
  Ascii.eqb ":" c = false → lacks c kv.1 → lacks c kv.2 →
  lacks c (alias_token kv).
Proof.
  intros Hc Hk Hv. unfold alias_token. apply lacks_app; [done|].
  apply lacks_cons. by split.
Qed.

Lemma str_join_nonempty sep x toks :
  x ≠ "" → str_join sep (x :: toks) ≠ "".
Proof.
  intros Hx. destruct toks as [|y toks]; [done|].
  rewrite str_join_cons_cons. by intros [? _]%str_app_eq_nil.
Qed.

Section ResolverProperties.
Variable script_dir : string.
Variable fs : filesystem.

Lemma get_tokens_content path text :
  fs (os_path_join script_dir path) = Content text →
  text ≠ EmptyString →
  get_tokens script_dir fs path
  = IO [] (Ok (Some (str_split "," (first_line text)))).
Proof.
  intros Hfs Hne. unfold get_tokens. rewrite Hfs. by destruct text.
Qed.

Lemma get_eff_user_resolves map_path user_map user :
  alias_loaded script_dir fs map_path user_map →
  get_eff_user script_dir fs user map_path
  = IO [] (Ok (resolve_alias user_map user)).
Proof.
  unfold alias_loaded, get_eff_user, resolve_alias.
  destruct map_path as [mp|]; simpl.
  - destruct (String.eqb mp ""); simpl.
    + intros ->. by rewrite lookup_empty.
    + intros (text & Hfs & Hne & Hmap).
      rewrite (get_tokens_content _ _ Hfs Hne). simpl. by rewrite Hmap.
  - intros ->. by rewrite lookup_empty.
Qed.

Lemma eff_users_resolves map_path user_map emails :
  alias_loaded script_dir fs map_path user_map →
  eff_users script_dir fs emails map_path
  = IO [] (Ok ((λ email, resolve_alias user_map (email_prefix email))
                 <$> emails)).
Proof.
  intros Hmap. induction emails as [|email emails IH]; simpl; [done|].
  rewrite (get_eff_user_resolves _ _ _ Hmap). simpl. by rewrite IH.
Qed.

(** The alias file written from a list of entries loads as their table. *)
Lemma alias_file_loaded map_path entries :
  alias_file script_dir fs map_path entries →
  alias_loaded script_dir fs map_path (alias_table entries).
Proof.
  unfold alias_file, alias_loaded. destruct map_path as [mp|]; [|by intros ->].
  destruct (String.eqb mp ""); [by intros ->|].
  intros (Hne & Hentries & tail & Htail & Hfs).
  exists (alias_line entries +:+ tail). split; [done|].
  assert (Forall (lacks newline) (alias_token <$> entries)) as Hnl.
  { apply Forall_fmap. eapply Forall_impl; [exact Hentries|].
    intros kv [(_ & _ & Hk) (_ & _ & Hv)]. by apply lacks_alias_token. }
  assert (Forall (lacks ",") (alias_token <$> entries)) as Hcomma.
  { apply Forall_fmap. eapply Forall_impl; [exact Hentries|].
    intros kv [(_ & Hk & _) (_ & Hv & _)]. by apply lacks_alias_token. }
  destruct (first_line_tail (alias_line entries) tail) as (suffix & -> & Hsuf);
    [by apply str_join_lacks|done|].
  split.
  - destruct entries as [|kv entries]; [done|]. intros [Hl _]%str_app_eq_nil.
    revert Hl. apply str_join_nonempty. unfold alias_token.
    by intros [_ ?]%str_app_eq_nil.
  - unfold alias_line. rewrite str_split_join.
    + unfold parse_user_map. rewrite (unpack_pairs_alias _ _ Hentries Hsuf).
      simpl. by rewrite dict_of_pairs_reverse.
    + by destruct entries.
    + done.
    + by destruct Hsuf as [->| ->].
Qed.

(** C8: for an e-mail list file whose first line is a comma-delimited list
    of addresses, the resolver returns a duplicate-free list whose members
    are exactly the trimmed prefixes before the first [@] of the
    addresses, each replaced by its canonical id when the alias table has
    it and kept otherwise.  The file is given by what it holds: the
    addresses joined by commas, then the end of the file or a line
    terminator and further lines. *)
Theorem resolver_identifiers path map_path emails tail entries :
  emails ≠ [] →
  Forall address emails →
  line_end tail →
  fs (os_path_join script_dir path) = Content (str_join "," emails +:+ tail) →
  alias_file script_dir fs map_path entries →
  ∃ users,
    get_users_from_file script_dir fs path map_path = IO [] (Ok users) ∧
    NoDup users ∧
    ∀ u, u ∈ users ↔
         ∃ email, email ∈ emails ∧
                  u = resolve_alias (alias_table entries)
                        (strip (before_at email)).
Proof.
  intros Hne Haddr Htail Hfs Halias.
  apply alias_file_loaded in Halias as Hmap.
  assert (Forall has_at emails) as Hat
    by (eapply Forall_impl; [exact Haddr|]; by intros email (? & _)).
  destruct (first_line_tail (str_join "," emails) tail)
    as (suffix & Hline & Hsuf); [|done|].
  { apply str_join_lacks; [done|].
    eapply Forall_impl; [exact Haddr|]. by intros email (_ & _ & ?). }
  assert (str_join "," emails +:+ tail ≠ "") as Htext.
  { destruct emails as [|email emails]; [done|].
    intros [Hl _]%str_app_eq_nil. revert Hl. apply str_join_nonempty.
    apply Forall_cons in Hat as [[i Hi] _]. by destruct email. }
  eexists. split; [|split].
  - unfold get_users_from_file.
    rewrite (get_tokens_content _ _ Hfs Htext), Hline. cbn [mbind io_bind].
    rewrite str_split_join.
    + rewrite (eff_users_resolves _ _ _ Hmap).
      rewrite (email_prefix_with_suffix (resolve_alias (alias_table entries))
                 _ _ Hat).
      reflexivity.
    + done.
    + eapply Forall_impl; [exact Haddr|]. by intros email (_ & ? & _).
    + by destruct Hsuf as [->| ->].
  - apply NoDup_elements.
  - intros u. rewrite elem_of_elements, elem_of_list_to_set, list_elem_of_fmap.
    split.
    + intros (email & -> & Hin). by exists email.
    + intros (email & Hin & ->). by exists email.
Qed.
End ResolverProperties.

(** The example of the resolver: [a@x.com, b@y.com, a@x.com] with the alias
    [a -> alice-id]. *)
Example resolver_without_aliases :
  get_users_from_file "/opt/stats" fs_example "emails.txt" None
  = IO [] (Ok ["a"; "b"]).
Proof. by vm_compute. Qed.

Example resolver_with_aliases :
  get_users_from_file "/opt/stats" fs_example "emails.txt" (Some "aliases.txt")
  = IO [] (Ok ["alice-id"; "b"]).
Proof. by vm_compute. Qed.

Lemma resolver_identifiers_witness :
  ∃ users,
    get_users_from_file "/opt/stats" fs_example "emails.txt"
      (Some "aliases.txt") = IO [] (Ok users) ∧
    NoDup users ∧
    ∀ u, u ∈ users ↔ u = "alice-id" ∨ u = "b".
Proof.
  destruct (resolver_identifiers "/opt/stats" fs_example "emails.txt"
              (Some "aliases.txt") ["a@x.com"; " b@y.com"; "a@x.com"] nl
              [("a ", " alice-id")])
    as (users & Hrun & Hnd & Hiff).
  - discriminate.
  - forall_list; (split; [|split]); by_compute.
  - right. by exists "".
  - reflexivity.
  - split; [discriminate|]. split.
    + forall_list. repeat split; by_compute.
    + exists nl. split; [right; by exists ""|reflexivity].
  - exists users. split; [exact Hrun|]. split; [exact Hnd|].
    clear Hrun Hnd. intros u. split.
    + intros (email & Hin & ->)%Hiff.
      repeat (apply elem_of_cons in Hin as [->|Hin]);
        [left; by vm_compute|right; by vm_compute|left; by vm_compute|].
      destruct (not_elem_of_nil _ Hin).
    + intros [->| ->]; apply Hiff.
      * exists "a@x.com". split; [left|by vm_compute].
      * exists " b@y.com". split; [right; left|by vm_compute].
Defined.

(** * Further properties *)

(** ** The fetcher: shape of the result and of the errors *)

Lemma py_sum_from_int a vals t :
  py_sum_from (PInt a) vals = Ok t → ∃ n, t = PInt n.
Proof.
  revert a. induction vals as [|v vals IH]; intros a; simpl.
  - intros [= <-]. eauto.
  - destruct (as_int v) as [z|] eqn:Hz.
    + rewrite (py_add_int _ _ _ Hz). simpl. apply IH.
    + by rewrite (py_add_not_int _ _ Hz).
Qed.

Lemma py_sum_from_raises a vals e :
  py_sum_from (PInt a) vals = Raise e → e = TypeError.
Proof.
  revert a. induction vals as [|v vals IH]; intros a; simpl; [done|].
  destruct (as_int v) as [z|] eqn:Hz.
  - rewrite (py_add_int _ _ _ Hz). simpl. apply IH.
  - rewrite (py_add_not_int _ _ Hz). simpl. by intros [= <-].
Qed.

Lemma py_sum_from_not_int a vals :
  Exists (λ v, as_int v = None) vals →
  py_sum_from (PInt a) vals = Raise TypeError.
Proof.
  intros Hex. revert a. induction Hex as [v vals Hv|v vals _ IH]; intros a;
    simpl.
  - by rewrite (py_add_not_int _ _ Hv).
  - destruct (as_int v) as [z|] eqn:Hz.
    + rewrite (py_add_int _ _ _ Hz). simpl. apply IH.
    + by rewrite (py_add_not_int _ _ Hz).
Qed.

(** What the fetcher does with the value of the guarded expression. *)
Lemma get_contribution_of_raw net user release v :
  fetch_raw net (contribution_url user release) = Ok v →
  get_contribution_for_user net user release
  = if truthy v then
      marks ← py_getitem v "marks";
      vals ← py_values marks;
      total ← py_sum vals;
      py_setitem v "marks" total
    else Ok v.
Proof. intros Hv. unfold get_contribution_for_user. by rewrite Hv. Qed.

(** X1: a falsy [contribution] value ([null], [false], 0, an empty string,
    list or object) is returned as it is, without any [marks] lookup. *)
Theorem fetcher_returns_falsy_unchanged net user release v :
  fetch_raw net (contribution_url user release) = Ok v →
  truthy v = false →
  get_contribution_for_user net user release = Ok v.
Proof.
  intros Hv Ht. rewrite (get_contribution_of_raw _ _ _ _ Hv). by rewrite Ht.
Qed.

Lemma fetcher_returns_falsy_unchanged_witness :
  get_contribution_for_user
    (λ _, Json (PDict [("contribution", PList [])])) "jdoe" None
  = Ok (PList []).
Proof.
  apply (fetcher_returns_falsy_unchanged
           (λ _, Json (PDict [("contribution", PList [])])) "jdoe" None
           (PList [])); reflexivity.
Defined.

(** X2: a truthy value returned by the fetcher is a dict whose [marks]
    field holds a single number, never the mapping of votes; the numbers of
    the responses considered here are integers, and so is that number. *)
Theorem fetcher_data_has_integer_marks net user release v :
  get_contribution_for_user net user release = Ok v →
  truthy v = true →
  ∃ d n, v = PDict d ∧ dict_get d "marks" = Some (PInt n).
Proof.
  unfold get_contribution_for_user.
  destruct (try_except_Exception _ _) as [ret|e]; simpl; [|done].
  destruct (truthy ret) eqn:Ht.
  - destruct (py_getitem ret "marks") as [marks|]; simpl; [|done].
    destruct (py_values marks) as [vals|]; simpl; [|done].
    destruct (py_sum vals) as [total|] eqn:Hsum; simpl; [|done].
    apply py_sum_from_int in Hsum as [n ->].
    destruct ret; simpl; try done. intros [= <-] _.
    eexists _, n. split; [done|]. apply dict_get_set_eq.
  - intros [= <-]. congruence.
Qed.

Lemma fetcher_data_has_integer_marks_witness :
  ∃ d n, PDict [("commit_count", PInt 4); ("marks", PInt 7); ("loc", PInt 100)]
         = PDict d ∧ dict_get d "marks" = Some (PInt n).
Proof.
  apply (fetcher_data_has_integer_marks net_votes "jdoe" None); reflexivity.
Defined.

(** X3: for a response whose numbers are integers, the only errors the
    fetcher lets out come from collapsing [marks]: [KeyError] for a missing
    [marks], [AttributeError] for a [marks] that is not an object,
    [TypeError] for a contribution that is not a dict or a vote count that
    is not a number.  No failure of the request itself gets out. *)
Theorem fetcher_raises_only_from_marks net user release e :
  get_contribution_for_user net user release = Raise e →
  e = KeyError "marks" ∨ e = AttributeError ∨ e = TypeError.
Proof.
  unfold get_contribution_for_user.
  destruct (fetch_raw net _) as [v|e0] eqn:Hraw; simpl.
  - destruct (truthy v); [|done].
    destruct v as [| | | | |d]; simpl; try (intros [= <-]; auto).
    unfold dict_getitem. destruct (dict_get d "marks") as [marks|]; simpl.
    + destruct marks as [| | | | |votes]; simpl; try (intros [= <-]; auto).
      destruct (py_sum votes.*2) as [total|e1] eqn:Hsum; simpl; [done|].
      apply py_sum_from_raises in Hsum as ->. intros [= <-]. auto.
    + intros [= <-]. auto.
  - by rewrite (fetch_raw_is_Exception _ _ _ Hraw).
Qed.

Lemma fetcher_raises_only_from_marks_witness :
  KeyError "marks" = KeyError "marks" ∨ KeyError "marks" = AttributeError
  ∨ KeyError "marks" = TypeError.
Proof.
  apply (fetcher_raises_only_from_marks net_no_marks "jdoe" None).
  reflexivity.
Defined.

(** X4: a non-empty contribution object whose [marks] is not an object
    makes the fetcher raise [AttributeError]. *)
Theorem fetcher_marks_not_object_raises net user release raw marks :
  fetch_raw net (contribution_url user release) = Ok (PDict raw) →
  dict_get raw "marks" = Some marks →
  (∀ votes, marks ≠ PDict votes) →
  get_contribution_for_user net user release = Raise AttributeError.
Proof.
  intros Hraw Hmarks Hnot. rewrite (get_contribution_of_raw _ _ _ _ Hraw).
  destruct raw as [|kv raw]; [done|]. simpl py_getitem. cbn [truthy].
  unfold dict_getitem. rewrite Hmarks. simpl.
  destruct marks; try done. by destruct (Hnot d).
Qed.

Lemma not_a_number_as_int v : not_a_number v → as_int v = None.
Proof. by destruct v. Qed.

(** X5: for a response whose numbers are integers, a [marks] object with a
    vote count that is not a number ([null], a string, a list or an object)
    makes the fetcher raise [TypeError]. *)
Theorem fetcher_vote_not_integer_raises net user release raw votes :
  fetch_raw net (contribution_url user release) = Ok (PDict raw) →
  dict_get raw "marks" = Some (PDict votes) →
  Exists (λ kv, not_a_number kv.2) votes →
  get_contribution_for_user net user release = Raise TypeError.
Proof.
  intros Hraw Hmarks Hex.
  apply (Exists_impl _ (λ kv, as_int kv.2 = None)) in Hex;
    [|intros kv; apply not_a_number_as_int].
  rewrite (get_contribution_of_raw _ _ _ _ Hraw).
  destruct raw as [|kv raw]; [done|]. simpl py_getitem. cbn [truthy].
  unfold dict_getitem. rewrite Hmarks. simpl. unfold py_sum.
  rewrite py_sum_from_not_int; [done|].
  clear -Hex. induction Hex as [[k v] votes Hv|[k v] votes _ IH]; simpl.
  - by left.
  - by right.
Qed.

Lemma fetcher_marks_not_object_raises_witness :
  get_contribution_for_user
    (λ _, Json (PDict [("contribution", PDict [("marks", PInt 3)])]))
    "jdoe" None
  = Raise AttributeError.
Proof.
  apply (fetcher_marks_not_object_raises
           (λ _, Json (PDict [("contribution", PDict [("marks", PInt 3)])]))
           "jdoe" None [("marks", PInt 3)] (PInt 3)).
  - reflexivity.
  - reflexivity.
  - discriminate.
Defined.

Lemma fetcher_vote_not_integer_raises_witness :
  get_contribution_for_user
    (λ _, Json (PDict [("contribution",
                        PDict [("marks", PDict [("1", PStr "two")])])]))
    "jdoe" None
  = Raise TypeError.
Proof.
  apply (fetcher_vote_not_integer_raises
           (λ _, Json (PDict [("contribution",
                               PDict [("marks", PDict [("1", PStr "two")])])]))
           "jdoe" None [("marks", PDict [("1", PStr "two")])]
           [("1", PStr "two")]).
  - reflexivity.
  - reflexivity.
  - apply Exists_cons_hd. exact I.
Defined.

(** ** The aggregator: composition, errors and key order *)

Lemma aggregate_loop_app ret rs1 rs2 :
  aggregate_loop ret (rs1 ++ rs2)
  = ret' ← aggregate_loop ret rs1; aggregate_loop ret' rs2.
Proof.
  revert ret. induction rs1 as [|r rs1 IH]; intros ret; simpl; [done|].
  destruct (aggregate_keys ret r (dict_keys r)) as [ret'|e]; simpl; [|done].
  apply IH.
Qed.

Lemma aggregate_contribution_records rs :
  Forall contribution_record rs →
  get_aggregate_contributions rs = Ok (acc known_keys (total rs)).
Proof.
  intros Hrs. unfold get_aggregate_contributions. rewrite zero_record_acc.
  rewrite (aggregate_loop_known _ known_keys_NoDup).
  - replace (forallb int_record rs) with true.
    + f_equal. apply acc_ext. intros k _. rewrite total_weight_total; [lia|].
      eapply Forall_impl; [exact Hrs|]. by intros r (? & _).
    + symmetry. apply forallb_intro. intros r Hr.
      apply int_valued_int_record.
      by apply (proj1 (Forall_forall _ _) Hrs r) in Hr as (_ & _ & ?).
  - eapply Forall_impl; [exact Hrs|]. by intros r (_ & ? & _).
Qed.

Lemma acc_contribution_record f : contribution_record (acc known_keys f).
Proof.
  split; [|split].
  - rewrite dict_keys_acc. apply known_keys_NoDup.
  - by rewrite dict_keys_acc.
  - unfold int_valued, acc. apply Forall_forall. intros [k v] Hin.
    apply list_elem_of_fmap in Hin as (k' & [= -> ->] & _). simpl. eauto.
Qed.

Lemma metric_acc f k : k ∈ known_keys → metric (acc known_keys f) k = f k.
Proof. intros Hk. unfold metric. by rewrite dict_get_acc. Qed.

Lemma total_app rs1 rs2 k : total (rs1 ++ rs2) k = (total rs1 k + total rs2 k)%Z.
Proof. induction rs1 as [|r rs1 IH]; simpl; lia. Qed.

(** X6: aggregates compose.  The aggregate of contribution records can
    stand for them in a later aggregation: aggregating it with further
    records gives the aggregate of all the records together. *)
Theorem aggregate_of_aggregate rs1 rs2 ret1 :
  Forall contribution_record rs1 →
  Forall contribution_record rs2 →
  get_aggregate_contributions rs1 = Ok ret1 →
  get_aggregate_contributions (ret1 :: rs2)
  = get_aggregate_contributions (rs1 ++ rs2).
Proof.
  intros H1 H2. rewrite (aggregate_contribution_records _ H1). intros Hret.
  assert (ret1 = acc known_keys (total rs1)) as -> by congruence. clear Hret.
  rewrite !aggregate_contribution_records.
  - f_equal. apply acc_ext. intros k Hk.
    change (total (acc known_keys (total rs1) :: rs2) k)
      with (metric (acc known_keys (total rs1)) k + total rs2 k)%Z.
    by rewrite total_app, metric_acc.
  - by apply Forall_app.
  - apply Forall_cons_2; [apply acc_contribution_record|done].
Qed.

Lemma dict_get_Some_iff r k v :
  NoDup (dict_keys r) → dict_get r k = Some v ↔ (k, v) ∈ r.
Proof.
  unfold dict_keys. induction r as [|[k0 v0] r IH]; simpl; intros Hnd.
  - split; [done|]. by intros ?%elem_of_nil.
  - apply NoDup_cons in Hnd as [Hk0 Hnd].
    destruct (String.eqb_spec k0 k) as [->|Hne].
    + split.
      * intros [= ->]. left.
      * intros [[= ->]|Hin]%elem_of_cons; [done|].
        destruct Hk0. apply list_elem_of_fmap. by exists (k, v).
    + rewrite (IH Hnd). split.
      * intros ?. by right.
      * intros [[= -> ->]|Hin]%elem_of_cons; [done|done].
Qed.

Lemma dict_get_Permutation r r' k :
  r ≡ₚ r' → NoDup (dict_keys r) → dict_get r k = dict_get r' k.
Proof.
  intros Hp Hnd.
  assert (NoDup (dict_keys r')) as Hnd'.
  { unfold dict_keys in *. by rewrite <-Hp. }
  destruct (dict_get r k) as [v|] eqn:Hv.
  - symmetry. apply dict_get_Some_iff; [done|]. rewrite <-Hp.
    by apply dict_get_Some_iff.
  - destruct (dict_get r' k) as [v'|] eqn:Hv'; [|done].
    apply dict_get_Some_iff in Hv'; [|done]. rewrite <-Hp in Hv'.
    apply dict_get_Some_iff in Hv'; [|done]. congruence.
Qed.

(** X7: for records whose numbers are integers and whose keys are all
    known, a value that is not a number ([None], a string, a list or a
    dict) makes the aggregator raise [TypeError]. *)
Theorem aggregate_non_integer_raises (rs : list pydict) :
  Forall (λ r, NoDup (dict_keys r) ∧ dict_keys r ⊆ known_keys) rs →
  Exists (λ r, Exists (λ kv, not_a_number kv.2) r) rs →
  get_aggregate_contributions rs = Raise TypeError.
Proof.
  intros Hrs Hex.
  apply (Exists_impl _ (λ r, Exists (λ kv, as_int kv.2 = None) r)) in Hex.
  2:{ intros r Hr. eapply Exists_impl; [exact Hr|].
      intros kv. apply not_a_number_as_int. }
  unfold get_aggregate_contributions. rewrite zero_record_acc.
  rewrite (aggregate_loop_known _ known_keys_NoDup).
  - replace (forallb int_record rs) with false; [done|].
    symmetry. apply not_true_is_false. intros Hall.
    apply Exists_exists in Hex as (r & Hr & Hbad).
    apply Exists_exists in Hbad as ([k v] & Hkv & Hv). simpl in Hv.
    apply (proj1 (Forall_forall _ _) Hrs) in Hr as Hwf. destruct Hwf as [Hnd _].
    apply list_elem_of_In in Hr.
    pose proof (proj1 (forallb_forall _ _) Hall r Hr) as Hrec.
    unfold int_record, ints_at in Hrec.
    assert (k ∈ dict_keys r) as Hk.
    { unfold dict_keys. apply list_elem_of_fmap. by exists (k, v). }
    apply list_elem_of_In in Hk.
    pose proof (proj1 (forallb_forall _ _) Hrec k Hk) as Hki.
    unfold key_int in Hki.
    rewrite (proj2 (dict_get_Some_iff r k v Hnd) Hkv) in Hki. simpl in Hki.
    by rewrite Hv in Hki.
  - eapply Forall_impl; [exact Hrs|]. by intros r [_ ?].
Qed.

Lemma aggregate_non_integer_raises_witness :
  get_aggregate_contributions [rec_a; [("loc", PStr "many")]] = Raise TypeError.
Proof.
  apply (aggregate_non_integer_raises [rec_a; [("loc", PStr "many")]]).
  - forall_list; split; by_compute.
  - apply Exists_cons_tl, Exists_cons_hd, Exists_cons_hd. exact I.
Defined.

Lemma aggregate_of_aggregate_witness :
  get_aggregate_contributions
    [ [ ("change_request_count", PInt 0); ("commit_count", PInt 2);
        ("completed_blueprint_count", PInt 0);
        ("drafted_blueprint_count", PInt 0); ("email_count", PInt 0);
        ("filed_bug_count", PInt 0); ("loc", PInt 10); ("marks", PInt 0);
        ("patch_set_count", PInt 0); ("resolved_bug_count", PInt 0);
        ("abandoned_change_requests_count", PInt 0); ("translations", PInt 0) ];
      rec_b ]
  = get_aggregate_contributions ([rec_a] ++ [rec_b]).
Proof.
  apply (aggregate_of_aggregate [rec_a] [rec_b]).
  - forall_list. apply rec_a_record.
  - forall_list. apply rec_b_record.
  - reflexivity.
Defined.

Lemma forallb_ext_in {A} (p q : A → bool) (l : list A) :
  (∀ x, x ∈ l → p x = q x) → forallb p l = forallb q l.
Proof.
  induction l as [|x l IH]; simpl; [done|]. intros Hpq.
  rewrite (Hpq x) by left. f_equal. apply IH. intros y Hy. apply Hpq. by right.
Qed.

Lemma dict_keys_Permutation (r r' : pydict) :
  r ≡ₚ r' → dict_keys r ≡ₚ dict_keys r'.
Proof. intros Hp. unfold dict_keys. by rewrite Hp. Qed.

Lemma int_record_Permutation r r' :
  r ≡ₚ r' → NoDup (dict_keys r) → int_record r = int_record r'.
Proof.
  intros Hp Hnd. unfold int_record, ints_at.
  rewrite (forallb_Permutation _ _ _ (dict_keys_Permutation _ _ Hp)).
  apply forallb_ext_in. intros key _. unfold key_int.
  by rewrite (dict_get_Permutation _ _ key Hp Hnd).
Qed.

Lemma record_weight_Permutation r r' k :
  r ≡ₚ r' → NoDup (dict_keys r) → record_weight r k = record_weight r' k.
Proof.
  intros Hp Hnd. rewrite !record_weight_metric.
  - unfold metric. by rewrite (dict_get_Permutation _ _ k Hp Hnd).
  - by rewrite <-(dict_keys_Permutation _ _ Hp).
  - done.
Qed.

(** X8: the order in which a record lists its keys does not matter.  Lists
    of records over the known keys that agree record by record up to the
    order of the entries have the same aggregate. *)
Theorem aggregate_key_order_irrelevant (rs rs' : list pydict) :
  Forall2 (λ r r', r ≡ₚ r') rs rs' →
  Forall (λ r, NoDup (dict_keys r) ∧ dict_keys r ⊆ known_keys) rs →
  get_aggregate_contributions rs = get_aggregate_contributions rs'.
Proof.
  intros Hperm Hrs. unfold get_aggregate_contributions.
  rewrite zero_record_acc.
  rewrite !(aggregate_loop_known _ known_keys_NoDup).
  - assert (forallb int_record rs = forallb int_record rs'
            ∧ ∀ k, total_weight rs k = total_weight rs' k) as [-> Hw].
    { clear -Hperm Hrs. induction Hperm as [|r r' rs rs' Hp _ IH]; [done|].
      apply Forall_cons in Hrs as [[Hnd _] Hrs].
      destruct (IH Hrs) as [Hb Hw]. simpl. split.
      - by rewrite Hb, (int_record_Permutation _ _ Hp Hnd).
      - intros k. by rewrite Hw, (record_weight_Permutation _ _ k Hp Hnd). }
    destruct (forallb int_record rs'); [|done]. f_equal.
    apply acc_ext. intros k _. by rewrite Hw.
  - clear -Hperm Hrs. induction Hperm as [|r r' rs rs' Hp _ IH]; [done|].
    apply Forall_cons in Hrs as [[_ Hsub] Hrs].
    constructor; [|by apply IH].
    by rewrite <-(dict_keys_Permutation _ _ Hp).
  - eapply Forall_impl; [exact Hrs|]. by intros r [_ ?].
Qed.

Lemma aggregate_key_order_irrelevant_witness :
  get_aggregate_contributions [rec_a; rec_b]
  = get_aggregate_contributions
      [ [("loc", PInt 10); ("commit_count", PInt 2)];
        [("marks", PInt 0); ("loc", PInt 5); ("commit_count", PInt 3)] ].
Proof.
  apply (aggregate_key_order_irrelevant [rec_a; rec_b]).
  - constructor; [apply perm_swap|].
    constructor; [|constructor].
    eapply perm_trans; [apply perm_skip, perm_swap|apply perm_swap].
  - forall_list; split; by_compute.
Defined.

(** ** The aggregator on the store: the result object *)

Lemma aggregate_keys_h_dom h ret contrib keys :
  ret ∈ dom h → dom (aggregate_keys_h h ret contrib keys).1 = dom h.
Proof.
  revert h. induction keys as [|key keys IH]; intros h Hret; [done|].
  simpl. destruct (_ ≫= _) as [s|e]; [|done].
  rewrite IH; rewrite dom_insert_L.
  - apply subseteq_union_1_L. by apply singleton_subseteq_l.
  - apply elem_of_union. by right.
Qed.

Lemma aggregate_loop_h_dom h ret contrib_list :
  ret ∈ dom h → dom (aggregate_loop_h h ret contrib_list).1 = dom h.
Proof.
  revert h. induction contrib_list as [|contrib rest IH]; intros h Hret;
    [done|].
  simpl. pose proof (aggregate_keys_h_dom h ret contrib
                       (dict_keys (h !!! contrib)) Hret) as Hdom.
  destruct (aggregate_keys_h _ _ _ _) as [h' [[]|e]]; simpl in *; [|done].
  rewrite IH; [done|]. by rewrite Hdom.
Qed.

(** X9: the aggregator allocates exactly one object, whether it returns or
    raises; the reference it returns is to that object, which did not exist
    before the call. *)
Theorem aggregate_allocates_result (h : heap) (contrib_list : list loc) :
  dom (get_aggregate_contributions_h h contrib_list).1
  = {[fresh (dom h)]} ∪ dom h ∧
  h !! fresh (dom h) = None ∧
  match (get_aggregate_contributions_h h contrib_list).2 with
  | Ok ret => ret = fresh (dom h)
  | Raise _ => True
  end.
Proof.
  unfold get_aggregate_contributions_h, alloc.
  pose proof (aggregate_loop_h_dom (<[fresh (dom h) := zero_record]> h)
                (fresh (dom h)) contrib_list) as Hdom.
  rewrite dom_insert_L in Hdom.
  destruct (aggregate_loop_h _ _ _) as [h' [[]|e]]; simpl in *.
  - split; [apply Hdom, elem_of_union; left; by apply elem_of_singleton|].
    split; [|done]. apply not_elem_of_dom, is_fresh.
  - split; [apply Hdom, elem_of_union; left; by apply elem_of_singleton|].
    split; [|done]. apply not_elem_of_dom, is_fresh.
Qed.

(** X10: on live references the store-level aggregator and the functional
    one agree: the object returned holds the record computed from the
    referenced records, and the error raised is the same. *)
Theorem aggregate_on_store_computes_aggregate
    (h : heap) (contrib_list : list loc) :
  Forall (λ contrib, is_Some (h !! contrib)) contrib_list →
  match get_aggregate_contributions_h h contrib_list with
  | (h', Ok ret) =>
      get_aggregate_contributions ((h !!!.) <$> contrib_list) = Ok (h' !!! ret)
  | (_, Raise e) =>
      get_aggregate_contributions ((h !!!.) <$> contrib_list) = Raise e
  end.
Proof.
  intros Hlive. unfold get_aggregate_contributions_h, alloc.
  set (ret := fresh (dom h)). set (h0 := <[ret := zero_record]> h).
  assert (ret ∉ contrib_list) as Hret.
  { intros Hin. apply (proj1 (Forall_forall _ _) Hlive) in Hin.
    apply (is_fresh (dom h)). by apply elem_of_dom. }
  pose proof (aggregate_loop_h_refines h0 ret contrib_list Hret) as Hloop.
  assert (h0 !!! ret = zero_record) as Hzero
    by apply lookup_total_insert_eq.
  assert ((h0 !!!.) <$> contrib_list = (h !!!.) <$> contrib_list) as Hsame.
  { apply list_fmap_ext. intros i l Hl. apply lookup_total_insert_ne.
    intros <-. apply Hret. by eapply list_elem_of_lookup_2. }
  rewrite Hzero, Hsame in Hloop. unfold get_aggregate_contributions.
  by destruct (aggregate_loop_h _ _ _) as [h' [[]|e]].
Qed.

Lemma aggregate_on_store_computes_aggregate_witness :
  match get_aggregate_contributions_h heap_ab [1; 2; 1]%positive with
  | (h', Ok ret) =>
      get_aggregate_contributions ((heap_ab !!!.) <$> [1; 2; 1]%positive)
      = Ok (h' !!! ret)
  | (_, Raise e) =>
      get_aggregate_contributions ((heap_ab !!!.) <$> [1; 2; 1]%positive)
      = Raise e
  end.
Proof.
  apply (aggregate_on_store_computes_aggregate heap_ab [1; 2; 1]%positive).
  forall_list; by_compute.
Defined.

(** ** Strings: splitting and trimming *)

Lemma str_split_cons sep s : ∃ t ts, str_split sep s = t :: ts.
Proof.
  destruct s as [|c s]; simpl; [eauto|].
  destruct (Ascii.eqb c sep); [eauto|].
  destruct (str_split sep s); eauto.
Qed.

(** X11: [split] loses nothing and cuts at every separator: joining the
    tokens with the separator gives the string back, there is at least one
    token, and no token contains the separator. *)
Theorem str_join_split (sep : ascii) (s : string) :
  str_join (String sep EmptyString) (str_split sep s) = s ∧
  str_split sep s ≠ [] ∧
  Forall (λ t, str_index t sep = None) (str_split sep s).
Proof.
  split; [|split].
  - induction s as [|c s IH]; simpl; [done|].
    destruct (str_split_cons sep s) as (t & ts & Hs). rewrite Hs in IH |- *.
    destruct (Ascii.eqb_spec c sep) as [->|Hne].
    + rewrite str_join_cons_cons, IH. reflexivity.
    + destruct ts as [|t' ts].
      * simpl in *. by rewrite IH.
      * rewrite str_join_cons_cons in IH |- *. rewrite <-IH.
        reflexivity.
  - destruct (str_split_cons sep s) as (t & ts & ->). discriminate.
  - induction s as [|c s IH]; simpl.
    + by apply Forall_cons_2.
    + destruct (Ascii.eqb_spec c sep) as [->|Hne].
      * by apply Forall_cons_2.
      * destruct (str_split sep s) as [|t ts]; simpl.
        -- apply Forall_cons_2; [|done]. simpl.
           by destruct (Ascii.eqb_spec c sep).
        -- apply Forall_cons in IH as [Ht Hts].
           apply Forall_cons_2; [|done]. simpl.
           destruct (Ascii.eqb_spec c sep); [done|]. by rewrite Ht.
Qed.

Lemma lstrip_head_not_space s : head_not_space (lstrip s).
Proof.
  induction s as [|c s IH]; simpl; [done|].
  destruct (is_space c) eqn:Hc; [done|]. simpl. done.
Qed.

Lemma lstrip_id s : head_not_space s → lstrip s = s.
Proof. destruct s as [|c s]; simpl; [done|]. by intros ->. Qed.

Lemma rstrip_head_not_space s : head_not_space s → head_not_space (rstrip s).
Proof.
  destruct s as [|c s]; simpl; [done|]. intros Hc.
  destruct (rstrip s); simpl; [by rewrite Hc|done].
Qed.

Lemma rstrip_idempotent s : rstrip (rstrip s) = rstrip s.
Proof.
  induction s as [|c s IH]; simpl; [done|].
  destruct (rstrip s) as [|c' t] eqn:Hs.
  - destruct (is_space c) eqn:Hc; simpl; [done|]. by rewrite Hc.
  - cbn [rstrip] in IH |- *. by rewrite IH.
Qed.

Lemma strip_trimmed s : trimmed (strip s).
Proof.
  unfold trimmed, strip.
  rewrite (lstrip_id (rstrip (lstrip s))).
  - apply rstrip_idempotent.
  - apply rstrip_head_not_space, lstrip_head_not_space.
Qed.

(** ** The resolver: errors and edge cases *)

Section ResolverErrors.
Variable script_dir : string.
Variable fs : filesystem.

(** X12: when the e-mail list cannot be read, and the path of the file and
    the text of the error are ASCII, the resolver prints the error with the
    path and exits with status 1. *)
Theorem resolver_email_file_unreadable path map_path msg :
  fs (os_path_join script_dir path) = ReadError msg →
  is_ascii (os_path_join script_dir path) = true →
  is_ascii msg = true →
  get_users_from_file script_dir fs path map_path
  = IO [Print ("Error reading file `" +:+ os_path_join script_dir path
               +:+ "`: " +:+ msg)]
       (Raise (SystemExit 1)).
Proof.
  intros Hfs Hfn Hmsg. unfold get_users_from_file, get_tokens.
  by rewrite Hfs, Hfn, Hmsg.
Qed.

(** X24: when a file cannot be read and its path or the text of the error
    holds a byte that is not ASCII, formatting the message fails: the
    resolver raises [UnicodeDecodeError], prints nothing and does not reach
    [sys.exit(1)]. *)
Theorem resolver_unreadable_non_ascii path map_path msg :
  fs (os_path_join script_dir path) = ReadError msg →
  is_ascii (os_path_join script_dir path) && is_ascii msg = false →
  get_users_from_file script_dir fs path map_path
  = IO [] (Raise UnicodeDecodeError).
Proof.
  intros Hfs Hascii. unfold get_users_from_file, get_tokens.
  by rewrite Hfs, Hascii.
Qed.

(** X13: when the alias file cannot be read, and its path and the text of
    the error are ASCII, the resolver prints the error once, with the path
    of the alias file, and exits with status 1. *)
Theorem resolver_alias_file_unreadable path mp text msg :
  fs (os_path_join script_dir path) = Content text →
  text ≠ EmptyString →
  mp ≠ "" →
  fs (os_path_join script_dir mp) = ReadError msg →
  is_ascii (os_path_join script_dir mp) = true →
  is_ascii msg = true →
  get_users_from_file script_dir fs path (Some mp)
  = IO [Print ("Error reading file `" +:+ os_path_join script_dir mp
               +:+ "`: " +:+ msg)]
       (Raise (SystemExit 1)).
Proof.
  intros Hfs Hne Hmp Hmap Hfn Hmsg. unfold get_users_from_file.
  rewrite (get_tokens_content _ _ _ _ Hfs Hne). cbn [mbind io_bind].
  destruct (str_split_cons "," (first_line text)) as (t & ts & ->).
  cbn [eff_users]. unfold get_eff_user.
  destruct (String.eqb_spec mp ""); [done|]. cbn [negb].
  unfold get_tokens at 1. rewrite Hmap, Hfn, Hmsg. reflexivity.
Qed.

(** X14: an e-mail list file without any line makes the resolver raise
    [TypeError], with nothing printed. *)
Theorem resolver_empty_email_file path map_path :
  fs (os_path_join script_dir path) = Content EmptyString →
  get_users_from_file script_dir fs path map_path = IO [] (Raise TypeError).
Proof.
  intros Hfs. unfold get_users_from_file, get_tokens. by rewrite Hfs.
Qed.

Lemma unpack_pairs_bad parts :
  Exists (λ p, length p ≠ 2) parts → unpack_pairs parts = Raise ValueError.
Proof.
  induction parts as [|p parts IH]; intros Hex.
  - by apply Exists_nil in Hex.
  - destruct p as [|key [|value [|x p]]]; try done.
    apply Exists_cons in Hex as [?|Hex]; [done|].
    simpl. by rewrite IH.
Qed.

(** X15: an alias token that is not of the form [prefix:id] (no colon, or
    more than one) makes the resolver raise [ValueError]. *)
Theorem resolver_bad_alias_token path mp text mtext :
  fs (os_path_join script_dir path) = Content text →
  text ≠ EmptyString →
  mp ≠ "" →
  fs (os_path_join script_dir mp) = Content mtext →
  mtext ≠ EmptyString →
  Exists bad_alias_token (str_split "," (first_line mtext)) →
  get_users_from_file script_dir fs path (Some mp) = IO [] (Raise ValueError).
Proof.
  intros Hfs Hne Hmp Hmap Hmne Hbad. unfold get_users_from_file.
  rewrite (get_tokens_content _ _ _ _ Hfs Hne). cbn [mbind io_bind].
  destruct (str_split_cons "," (first_line text)) as (t & ts & ->).
  cbn [eff_users]. unfold get_eff_user.
  destruct (String.eqb_spec mp ""); [done|]. cbn [negb].
  rewrite (get_tokens_content _ _ _ _ Hmap Hmne). cbn [mbind io_bind].
  unfold parse_user_map. rewrite unpack_pairs_bad; [done|].
  apply Exists_fmap. exact Hbad.
Qed.

(** X16: only the first line of a file is read: whatever follows the first
    line terminator has no effect on the tokens. *)
Theorem get_tokens_first_line_only path l rest :
  fs (os_path_join script_dir path) = Content (l +:+ nl +:+ rest) →
  no_newline l →
  get_tokens script_dir fs path
  = IO [] (Ok (Some (str_split "," (l +:+ nl)))).
Proof.
  intros Hfs Hl. rewrite (get_tokens_content _ _ _ _ Hfs).
  - by rewrite first_line_app.
  - by destruct l.
Qed.
End ResolverErrors.

Lemma resolver_email_file_unreadable_witness :
  get_users_from_file "/opt/stats" fs_example "missing.txt" None
  = IO [Print ("Error reading file `" +:+ os_path_join "/opt/stats" "missing.txt"
               +:+ "`: " +:+ "[Errno 2] No such file or directory")]
       (Raise (SystemExit 1)).
Proof.
  apply (resolver_email_file_unreadable "/opt/stats" fs_example "missing.txt"
           None "[Errno 2] No such file or directory"); reflexivity.
Defined.

Lemma resolver_unreadable_non_ascii_witness :
  get_users_from_file ""
    (λ _, ReadError "[Errno 2] No such file or directory")
    (String (ascii_of_nat 233) "mails.txt") None
  = IO [] (Raise UnicodeDecodeError).
Proof.
  apply (resolver_unreadable_non_ascii ""
           (λ _, ReadError "[Errno 2] No such file or directory")
           (String (ascii_of_nat 233) "mails.txt") None
           "[Errno 2] No such file or directory"); reflexivity.
Defined.

Lemma resolver_alias_file_unreadable_witness :
  get_users_from_file "/opt/stats" fs_example "emails.txt" (Some "missing.txt")
  = IO [Print ("Error reading file `" +:+ os_path_join "/opt/stats" "missing.txt"
               +:+ "`: " +:+ "[Errno 2] No such file or directory")]
       (Raise (SystemExit 1)).
Proof.
  apply (resolver_alias_file_unreadable "/opt/stats" fs_example "emails.txt"
           "missing.txt" ("a@x.com, b@y.com,a@x.com" +:+ nl)
           "[Errno 2] No such file or directory").
  - reflexivity.
  - discriminate.
  - discriminate.
  - reflexivity.
  - reflexivity.
  - reflexivity.
Defined.

Lemma resolver_empty_email_file_witness :
  get_users_from_file "" (λ _, Content EmptyString) "emails.txt" None
  = IO [] (Raise TypeError).
Proof.
  apply (resolver_empty_email_file "" (λ _, Content EmptyString)
           "emails.txt" None).
  reflexivity.
Defined.

Lemma resolver_bad_alias_token_witness :
  get_users_from_file ""
    (λ fn, if String.eqb fn "emails.txt" then Content ("a@x.com" +:+ nl)
           else Content ("a:alice-id,b" +:+ nl))
    "emails.txt" (Some "aliases.txt")
  = IO [] (Raise ValueError).
Proof.
  apply (resolver_bad_alias_token ""
           (λ fn, if String.eqb fn "emails.txt" then Content ("a@x.com" +:+ nl)
                  else Content ("a:alice-id,b" +:+ nl))
           "emails.txt" "aliases.txt" ("a@x.com" +:+ nl)
           ("a:alice-id,b" +:+ nl)).
  - reflexivity.
  - discriminate.
  - discriminate.
  - reflexivity.
  - discriminate.
  - apply Exists_cons_tl, Exists_cons_hd. unfold bad_alias_token.
    vm_compute. discriminate.
Defined.

Lemma get_tokens_first_line_only_witness :
  get_tokens "" (λ _, Content ("a@x.com,b@y.com" +:+ nl +:+ "c@z.com,d@z.com"))
    "emails.txt"
  = IO [] (Ok (Some (str_split "," ("a@x.com,b@y.com" +:+ nl)))).
Proof.
  apply (get_tokens_first_line_only ""
           (λ _, Content ("a@x.com,b@y.com" +:+ nl +:+ "c@z.com,d@z.com"))
           "emails.txt" "a@x.com,b@y.com" "c@z.com,d@z.com").
  - reflexivity.
  - reflexivity.
Defined.

(** ** The resolver: what the identifiers look like *)

Lemma unpack_pairs_trimmed parts pairs :
  unpack_pairs parts = Ok pairs → Forall (λ kv, trimmed kv.2) pairs.
Proof.
  revert pairs. induction parts as [|p parts IH]; intros pairs; simpl.
  - intros [= <-]. apply Forall_nil_2.
  - destruct p as [|key [|value [|x p]]]; try done.
    destruct (unpack_pairs parts) as [ps|]; simpl; [|done].
    intros [= <-]. apply Forall_cons_2; [apply strip_trimmed|by apply IH].
Qed.

Lemma foldl_insert_lookup (pairs : list (string * string))
    (m : gmap string string) k v :
  foldl (λ m kv, <[kv.1 := kv.2]> m) m pairs !! k = Some v →
  m !! k = Some v ∨ (k, v) ∈ pairs.
Proof.
  revert m. induction pairs as [|[k0 v0] pairs IH]; intros m; simpl; [auto|].
  intros Hl. apply IH in Hl as [Hl|Hl].
  - destruct (decide (k0 = k)) as [->|Hne].
    + rewrite lookup_insert_eq in Hl. injection Hl as ->. right. left.
    + rewrite lookup_insert_ne in Hl by done. by left.
  - right. by right.
Qed.

Lemma parse_user_map_trimmed toks user_map k v :
  parse_user_map toks = Ok user_map → user_map !! k = Some v → trimmed v.
Proof.
  unfold parse_user_map. destruct toks as [toks|]; [|done].
  destruct (unpack_pairs _) as [pairs|] eqn:Hp; simpl; [|done].
  intros [= <-] Hl. apply unpack_pairs_trimmed in Hp.
  apply foldl_insert_lookup in Hl as [Hl|Hl]; [by rewrite lookup_empty in Hl|].
  by apply (proj1 (Forall_forall _ _) Hp (k, v)).
Qed.

Section ResolverShape.
Variable script_dir : string.
Variable fs : filesystem.

Lemma get_eff_user_trimmed user map_path out u :
  trimmed user →
  get_eff_user script_dir fs user map_path = IO out (Ok u) →
  trimmed u.
Proof.
  intros Huser. unfold get_eff_user.
  destruct map_path as [mp|]; [|by intros [= _ <-]].
  destruct (String.eqb mp ""); simpl; [by intros [= _ <-]|].
  destruct (get_tokens script_dir fs mp) as [o [toks|e]]; simpl; [|done].
  destruct (parse_user_map toks) as [user_map|e] eqn:Hmap; simpl; [|done].
  intros [= _ <-]. destruct (user_map !! user) as [id|] eqn:Hid; [|done].
  by eapply parse_user_map_trimmed.
Qed.

Lemma eff_users_shape emails map_path out users :
  eff_users script_dir fs emails map_path = IO out (Ok users) →
  length users = length emails ∧ Forall trimmed users.
Proof.
  revert out users. induction emails as [|email emails IH]; intros out users;
    simpl.
  - intros [= _ <-]. split; [done|apply Forall_nil_2].
  - pose proof (get_eff_user_trimmed (email_prefix email) map_path) as Hu.
    destruct (get_eff_user _ _ _ _) as [o [u|e]]; simpl; [|done].
    specialize (Hu o u (strip_trimmed _) eq_refl).
    destruct (eff_users script_dir fs emails map_path) as [o' [us|e]]; simpl;
      [|done].
    destruct (IH o' us eq_refl) as [Hlen Hus].
    intros [= _ <-]. split; [simpl; by rewrite Hlen|by apply Forall_cons_2].
Qed.

(** X17: whenever the resolver returns, with or without an alias file, the
    list it returns is not empty, has no duplicates, and every identifier
    in it is free of leading and trailing whitespace. *)
Theorem resolver_result_shape path map_path out users :
  get_users_from_file script_dir fs path map_path = IO out (Ok users) →
  users ≠ [] ∧ NoDup users ∧ Forall trimmed users.
Proof.
  unfold get_users_from_file.
  destruct (get_tokens script_dir fs path) as [o [[emails|]|e]] eqn:Htok;
    simpl; [|done|done].
  pose proof (eff_users_shape emails map_path) as Hshape.
  destruct (eff_users script_dir fs emails map_path) as [o' [us|e]]; simpl;
    [|done].
  destruct (Hshape o' us eq_refl) as [Hlen Hus]. intros [= _ <-].
  assert (emails ≠ []) as Hne.
  { unfold get_tokens in Htok.
    destruct (fs _) as [msg|text]; [by destruct (_ && _)|].
    destruct text; [done|].
    unfold mret, io_ret in Htok. injection Htok as _ Hem. rewrite <-Hem.
    match goal with
    | |- str_split ?c ?x ≠ [] =>
        destruct (str_split_cons c x) as (t & ts & ->)
    end.
    discriminate. }
  split; [|split].
  - destruct us as [|u us]; [by destruct emails|].
    intros Hnil.
    assert (u ∈ elements (list_to_set (u :: us) : gset string)) as Hin
      by (apply elem_of_elements, elem_of_list_to_set; left).
    rewrite Hnil in Hin. by apply elem_of_nil in Hin.
  - apply NoDup_elements.
  - apply Forall_forall. intros u Hu.
    apply elem_of_elements, elem_of_list_to_set in Hu.
    by apply (proj1 (Forall_forall _ _) Hus).
Qed.
End ResolverShape.

Lemma resolver_result_shape_witness :
  ["alice-id"; "b"] ≠ [] ∧ NoDup ["alice-id"; "b"]
  ∧ Forall trimmed ["alice-id"; "b"].
Proof.
  apply (resolver_result_shape "/opt/stats" fs_example "emails.txt"
           (Some "aliases.txt") []).
  by vm_compute.
Defined.

(** X18: when the alias file lists a prefix more than once, the last entry
    for it is the one in force. *)
Theorem alias_last_entry_wins (l1 l2 : list (string * string)) k v :
  k ∉ l2.*1 → dict_of_pairs (l1 ++ (k, v) :: l2) !! k = Some v.
Proof.
  intros Hk. unfold dict_of_pairs. rewrite foldl_app. simpl.
  generalize (foldl (λ m kv, <[kv.1 := kv.2]> m) (∅ : gmap string string) l1).
  intros m. assert (<[k := v]> m !! k = Some v) as Hm
    by apply lookup_insert_eq.
  revert Hm. generalize (<[k := v]> m). clear m.
  induction l2 as [|[k' v'] l2 IH]; intros m Hm; simpl; [done|].
  apply not_elem_of_cons in Hk as [Hne Hk]. apply IH; [done|].
  rewrite lookup_insert_ne; [done|]. intros ->. by apply Hne.
Qed.

Lemma alias_last_entry_wins_witness :
  dict_of_pairs ([("a", "old-id")] ++ ("a", "new-id") :: [("b", "bob-id")])
    !! "a" = Some "new-id".
Proof.
  apply (alias_last_entry_wins [("a", "old-id")] [("b", "bob-id")] "a" "new-id").
  by_compute.
Defined.

(** ** The display routines: what is printed *)

Lemma aggregate_keys_nonempty ret contrib keys ret' :
  aggregate_keys ret contrib keys = Ok ret' → ret ≠ [] → ret' ≠ [].
Proof.
  revert ret. induction keys as [|key keys IH]; intros ret; simpl.
  - by intros [= <-].
  - destruct (dict_getitem ret key) as [a|]; simpl; [|done].
    destruct (dict_getitem contrib key) as [b|]; simpl; [|done].
    destruct (py_add a b) as [s|]; simpl; [|done].
    intros Hagg _. apply (IH _ Hagg).
    destruct ret as [|[k w] ret]; simpl; [done|]. by destruct (String.eqb k key).
Qed.

Lemma aggregate_loop_nonempty ret rs ret' :
  aggregate_loop ret rs = Ok ret' → ret ≠ [] → ret' ≠ [].
Proof.
  revert ret. induction rs as [|r rs IH]; intros ret; simpl.
  - by intros [= <-].
  - destruct (aggregate_keys ret r (dict_keys r)) as [ret1|] eqn:Hk; simpl;
      [|done].
    intros Hloop Hne. apply (IH _ Hloop). by eapply aggregate_keys_nonempty.
Qed.

Lemma get_tokens_out script_dir fs path :
  Forall is_error_print (io_out (get_tokens script_dir fs path)).
Proof.
  unfold get_tokens. destruct (fs _) as [msg|text]; simpl.
  - destruct (_ && _); simpl; [|apply Forall_nil_2].
    apply Forall_cons_2; [|apply Forall_nil_2]. eexists. reflexivity.
  - destruct text; apply Forall_nil_2.
Qed.

Lemma io_bind_out {A B} (m : io A) (f : A → io B) (P : event → Prop) :
  Forall P (io_out m) →
  (∀ a, Forall P (io_out (f a))) →
  Forall P (io_out (m ≫= f)).
Proof.
  intros Hm Hf. destruct m as [out [a|e]]; simpl in *; [|done].
  specialize (Hf a). destruct (f a) as [out' r]. simpl in *.
  by apply Forall_app.
Qed.

Lemma get_eff_user_out script_dir fs user map_path :
  Forall is_error_print (io_out (get_eff_user script_dir fs user map_path)).
Proof.
  unfold get_eff_user. destruct map_path as [mp|]; [|apply Forall_nil_2].
  destruct (negb _); [|apply Forall_nil_2].
  apply io_bind_out; [apply get_tokens_out|]. intros toks.
  apply io_bind_out; [apply Forall_nil_2|]. intros m. apply Forall_nil_2.
Qed.

Lemma eff_users_out script_dir fs emails map_path :
  Forall is_error_print (io_out (eff_users script_dir fs emails map_path)).
Proof.
  induction emails as [|email emails IH]; simpl; [apply Forall_nil_2|].
  apply io_bind_out; [apply get_eff_user_out|]. intros u.
  apply io_bind_out; [apply IH|]. intros us. apply Forall_nil_2.
Qed.

Lemma get_users_from_file_out script_dir fs path map_path :
  Forall is_error_print
    (io_out (get_users_from_file script_dir fs path map_path)).
Proof.
  unfold get_users_from_file.
  apply io_bind_out; [apply get_tokens_out|]. intros [emails|].
  - apply io_bind_out; [apply eff_users_out|]. intros us. apply Forall_nil_2.
  - apply Forall_nil_2.
Qed.

(** X19: aggregate mode never prints the "no data" message, whatever the
    files and the remote service hold: its output is the file error, or the
    "not found" block followed, when aggregation succeeds, by the header
    and a non-empty record. *)
Theorem aggregate_mode_never_prints_no_data
    script_dir fs net path map_path release :
  Print NO_DATA_MESSAGE
    ∉ io_out (display_aggregate_stats script_dir fs net path map_path release).
Proof.
  unfold display_aggregate_stats.
  pose proof (get_users_from_file_out script_dir fs path map_path) as Hout.
  destruct (get_users_from_file _ _ _ _) as [out [users|e]]; simpl in *.
  - destruct (collect_contributions net release users [] [])
      as [[unknown contribs]|e]; simpl.
    + destruct (get_aggregate_contributions contribs) as [total|e] eqn:Hagg;
        simpl.
      * assert (total ≠ []) as Hne
          by (by eapply aggregate_loop_nonempty; [exact Hagg|]).
        destruct total as [|kv total]; [done|]. simpl.
        rewrite !elem_of_app, !elem_of_cons, elem_of_nil.
        intros [Hin|[[=]|[[=]|[[=]|[]]]]].
        apply (proj1 (Forall_forall _ _) Hout) in Hin as [rest [=]].
      * rewrite !elem_of_app, !elem_of_cons, elem_of_nil.
        intros [Hin|[[=]|[]]].
        apply (proj1 (Forall_forall _ _) Hout) in Hin as [rest [=]].
    + rewrite app_nil_r. intros Hin.
      apply (proj1 (Forall_forall _ _) Hout) in Hin as [rest [=]].
  - intros Hin. apply (proj1 (Forall_forall _ _) Hout) in Hin as [rest [=]].
Qed.

(** X20: in single-user mode a failed fetch ends normally with the
    "no data" message as the only output. *)
Theorem single_user_fetch_failure net user release e :
  fetch_raw net (contribution_url user release) = Raise e →
  display_user_stats net user release = IO [Print NO_DATA_MESSAGE] (Ok ()).
Proof.
  intros He. unfold display_user_stats, get_contribution_for_user.
  rewrite He. simpl. by rewrite (fetch_raw_is_Exception _ _ _ He).
Qed.

Lemma single_user_fetch_failure_witness :
  display_user_stats net_down "jdoe" (Some "kilo")
  = IO [Print NO_DATA_MESSAGE] (Ok ()).
Proof.
  apply (single_user_fetch_failure net_down "jdoe" (Some "kilo")
           ConnectionError).
  reflexivity.
Defined.

Global Instance str_le_total : Total str_le.
Proof. intros a b. apply String.leb_total. Qed.

(** What the loop of aggregate mode collects: the users without data, in
    order, and for each user with data, in order, the record fetched. *)
Lemma collect_contributions_partition net release users :
  ∀ unknown0 contribs0 unknown contribs,
    collect_contributions net release users unknown0 contribs0
    = Ok (unknown, contribs) →
    unknown
    = (unknown0 ++ filter (λ u, has_data net release u = false) users)%list ∧
    ∃ fetched,
      contribs = (contribs0 ++ fetched)%list ∧
      Forall2 (λ u d, get_contribution_for_user net u release = Ok (PDict d))
        (filter (λ u, has_data net release u = true) users) fetched.
Proof.
  induction users as [|user users IH]; intros unknown0 contribs0 unknown
    contribs; simpl.
  - intros [= <- <-]. rewrite !app_nil_r. split; [done|].
    exists []. rewrite app_nil_r. split; [done|constructor].
  - rewrite !filter_cons.
    destruct (get_contribution_for_user net user release) as [v|] eqn:Hget;
      simpl; [|done].
    assert (has_data net release user = truthy v) as Hd
      by (unfold has_data; by rewrite Hget).
    destruct (truthy v) eqn:Ht; simpl.
    + destruct v as [| | | | |d]; try done. intros Hc.
      apply IH in Hc as [-> (fetched & -> & Hf)].
      rewrite decide_False by (by rewrite Hd).
      rewrite decide_True by done.
      split; [done|]. exists (d :: fetched). rewrite <-app_assoc.
      split; [done|]. by constructor.
    + intros Hc. apply IH in Hc as [-> (fetched & -> & Hf)].
      rewrite decide_True by done.
      rewrite decide_False by (by rewrite Hd).
      split; [by rewrite <-app_assoc|]. by exists fetched.
Qed.

Section AggregateReport.
Variable script_dir : string.
Variable fs : filesystem.
Variable net : remote.

(** X21: the report of aggregate mode.  When the identifiers are resolved,
    every fetch returns, and the records fetched are contribution records,
    aggregate mode prints the "not found" block with exactly the users
    without data, in sorted order, then the header and the record of the
    sums over the records fetched for the users with data, one record per
    such user, and ends normally. *)
Theorem aggregate_mode_report
    path map_path release out users unknown contribs :
  get_users_from_file script_dir fs path map_path = IO out (Ok users) →
  collect_contributions net release users [] [] = Ok (unknown, contribs) →
  Forall contribution_record contribs →
  display_aggregate_stats script_dir fs net path map_path release
  = IO (out ++ [ Print (not_found_block (merge_sort str_le unknown));
                 Print "Contributions:";
                 PrintJson (PDict (acc known_keys (total contribs))) ])
       (Ok ()) ∧
  Sorted str_le (merge_sort str_le unknown) ∧
  merge_sort str_le unknown
    ≡ₚ filter (λ u, has_data net release u = false) users ∧
  Forall2 (λ u d, get_contribution_for_user net u release = Ok (PDict d))
    (filter (λ u, has_data net release u = true) users) contribs.
Proof.
  intros Husers Hc Hrecs.
  destruct (collect_contributions_partition _ _ _ _ _ _ _ Hc)
    as [Hu (fetched & Hfetched & Hf)].
  simpl in Hfetched. subst fetched.
  split; [|split; [|split]].
  - unfold display_aggregate_stats. rewrite Husers. cbn [mbind io_bind].
    rewrite Hc. cbn -[merge_sort get_aggregate_contributions display_stats
                      not_found_block app].
    rewrite (aggregate_contribution_records _ Hrecs). reflexivity.
  - apply Sorted_merge_sort, _.
  - rewrite merge_sort_Permutation. by rewrite Hu.
  - done.
Qed.
End AggregateReport.

Lemma aggregate_mode_report_witness :
  display_aggregate_stats "/opt/stats" fs_example net_votes "emails.txt"
    None None
  = IO ([] ++ [ Print (not_found_block (merge_sort str_le []));
                Print "Contributions:";
                PrintJson
                  (PDict (acc known_keys
                            (total
                               [ [("commit_count", PInt 4); ("marks", PInt 7);
                                  ("loc", PInt 100)];
                                 [("commit_count", PInt 4); ("marks", PInt 7);
                                  ("loc", PInt 100)] ]))) ])
       (Ok ()) ∧
  Sorted str_le (merge_sort str_le []) ∧
  merge_sort str_le []
    ≡ₚ filter (λ u, has_data net_votes None u = false) ["a"; "b"] ∧
  Forall2 (λ u d, get_contribution_for_user net_votes u None = Ok (PDict d))
    (filter (λ u, has_data net_votes None u = true) ["a"; "b"])
    [ [("commit_count", PInt 4); ("marks", PInt 7); ("loc", PInt 100)];
      [("commit_count", PInt 4); ("marks", PInt 7); ("loc", PInt 100)] ].
Proof.
  apply (aggregate_mode_report "/opt/stats" fs_example net_votes "emails.txt"
           None None [] ["a"; "b"] []).
  - by vm_compute.
  - reflexivity.
  - forall_list; (split; [|split]); unfold int_valued; by_compute.
Defined.

(** ** The command line *)

Lemma py_add_raises a b e : py_add a b = Raise e → e = TypeError.
Proof.
  unfold py_add. destruct (as_int a), (as_int b); try done;
    destruct a, b; simpl; try done; by intros [= <-].
Qed.

Lemma aggregate_keys_raises ret contrib keys e :
  aggregate_keys ret contrib keys = Raise e → e ≠ ConnectionError.
Proof.
  revert ret. induction keys as [|key keys IH]; intros ret; simpl; [done|].
  unfold dict_getitem.
  destruct (dict_get ret key) as [a|]; simpl; [|by intros [= <-]].
  destruct (dict_get contrib key) as [b|]; simpl; [|by intros [= <-]].
  destruct (py_add a b) as [s|e'] eqn:Hadd; simpl; [apply IH|].
  apply py_add_raises in Hadd as ->. by intros [= <-].
Qed.

Lemma aggregate_loop_raises ret rs e :
  aggregate_loop ret rs = Raise e → e ≠ ConnectionError.
Proof.
  revert ret. induction rs as [|r rs IH]; intros ret; simpl; [done|].
  destruct (aggregate_keys ret r (dict_keys r)) as [ret'|e'] eqn:Hk; simpl.
  - apply IH.
  - intros [= <-]. by eapply aggregate_keys_raises.
Qed.

Lemma get_contribution_raises net user release e :
  get_contribution_for_user net user release = Raise e → e ≠ ConnectionError.
Proof.
  unfold get_contribution_for_user.
  destruct (fetch_raw net _) as [v|e0] eqn:Hraw; simpl.
  - destruct (truthy v); [|done].
    destruct v as [| | | | |d]; simpl; try by intros [= <-].
    unfold dict_getitem. destruct (dict_get d "marks") as [marks|]; simpl;
      [|by intros [= <-]].
    destruct marks as [| | | | |votes]; simpl; try by intros [= <-].
    destruct (py_sum votes.*2) as [total|e1] eqn:Hsum; simpl; [done|].
    apply py_sum_from_raises in Hsum as ->. by intros [= <-].
  - by rewrite (fetch_raw_is_Exception _ _ _ Hraw).
Qed.

Lemma collect_contributions_raises net release users unknown contribs e :
  collect_contributions net release users unknown contribs = Raise e →
  e ≠ ConnectionError.
Proof.
  revert unknown contribs. induction users as [|user users IH];
    intros unknown contribs; simpl; [done|].
  destruct (get_contribution_for_user net user release) as [v|e'] eqn:Hget;
    simpl.
  - destruct (truthy v); simpl; [|apply IH].
    destruct v; try (by intros [= <-]). apply IH.
  - intros [= <-]. by eapply get_contribution_raises.
Qed.

Lemma io_bind_raises {A B} (m : io A) (f : A → io B) (P : exn → Prop) e :
  io_res (m ≫= f) = Raise e →
  (∀ e', io_res m = Raise e' → P e') →
  (∀ a e', io_res (f a) = Raise e' → P e') →
  P e.
Proof.
  intros He Hm Hf. destruct m as [out [a|e0]]; simpl in *.
  - apply (Hf a). by destruct (f a).
  - apply Hm. by injection He as ->.
Qed.

Lemma get_tokens_raises script_dir fs path e :
  io_res (get_tokens script_dir fs path) = Raise e → e ≠ ConnectionError.
Proof.
  unfold get_tokens. destruct (fs _) as [msg|text]; simpl.
  - destruct (_ && _); by intros [= <-].
  - by destruct text.
Qed.

Lemma unpack_pairs_raises parts e :
  unpack_pairs parts = Raise e → e = ValueError.
Proof.
  induction parts as [|p parts IH]; simpl; [done|].
  destruct p as [|key [|value [|x p]]]; try by intros [= <-].
  destruct (unpack_pairs parts) as [ps|e']; simpl; [done|].
  intros [= <-]. by apply IH.
Qed.

Lemma get_eff_user_raises script_dir fs user map_path e :
  io_res (get_eff_user script_dir fs user map_path) = Raise e →
  e ≠ ConnectionError.
Proof.
  unfold get_eff_user. destruct map_path as [mp|]; [|done].
  destruct (negb _); [|done]. intros He.
  apply (io_bind_raises _ _ (λ e, e ≠ ConnectionError) _ He).
  - apply get_tokens_raises.
  - intros toks e' He'.
    apply (io_bind_raises _ _ (λ e, e ≠ ConnectionError) _ He').
    + unfold lift, parse_user_map. simpl. destruct toks as [toks|].
      * destruct (unpack_pairs _) as [ps|e1] eqn:Hp; simpl; [done|].
        apply unpack_pairs_raises in Hp as ->. by intros e2 [= <-].
      * by intros e2 [= <-].
    + done.
Qed.

Lemma eff_users_raises script_dir fs emails map_path e :
  io_res (eff_users script_dir fs emails map_path) = Raise e →
  e ≠ ConnectionError.
Proof.
  revert e. induction emails as [|email emails IH]; intros e; simpl; [done|].
  intros He. apply (io_bind_raises _ _ (λ e, e ≠ ConnectionError) _ He).
  - apply get_eff_user_raises.
  - intros u e' He'.
    apply (io_bind_raises _ _ (λ e, e ≠ ConnectionError) _ He'); [apply IH|done].
Qed.

Lemma get_users_from_file_raises script_dir fs path map_path e :
  io_res (get_users_from_file script_dir fs path map_path) = Raise e →
  e ≠ ConnectionError.
Proof.
  unfold get_users_from_file. intros He.
  apply (io_bind_raises _ _ (λ e, e ≠ ConnectionError) _ He).
  - apply get_tokens_raises.
  - intros [emails|] e' He'.
    + apply (io_bind_raises _ _ (λ e, e ≠ ConnectionError) _ He');
        [apply eff_users_raises|done].
    + simpl in He'. by injection He' as <-.
Qed.

Lemma display_stats_raises v e : io_res (display_stats v) ≠ Raise e.
Proof. unfold display_stats. by destruct (truthy v). Qed.

Lemma display_user_stats_raises net user release e :
  io_res (display_user_stats net user release) = Raise e → e ≠ ConnectionError.
Proof.
  unfold display_user_stats. intros He.
  apply (io_bind_raises _ _ (λ e, e ≠ ConnectionError) _ He).
  - simpl. apply get_contribution_raises.
  - intros v e' He'. by destruct (display_stats_raises v e').
Qed.

Lemma display_aggregate_stats_raises
    script_dir fs net path map_path release e :
  io_res (display_aggregate_stats script_dir fs net path map_path release)
  = Raise e →
  e ≠ ConnectionError.
Proof.
  unfold display_aggregate_stats. intros He.
  apply (io_bind_raises _ _ (λ e, e ≠ ConnectionError) _ He).
  - apply get_users_from_file_raises.
  - intros users e1 He1.
    apply (io_bind_raises _ _ (λ e, e ≠ ConnectionError) _ He1).
    + simpl. apply collect_contributions_raises.
    + intros [unknown contribs] e2 He2.
      apply (io_bind_raises _ _ (λ e, e ≠ ConnectionError) _ He2); [done|].
      intros _ e3 He3.
      apply (io_bind_raises _ _ (λ e, e ≠ ConnectionError) _ He3).
      * simpl. apply aggregate_loop_raises.
      * intros total e4 He4. by destruct (display_stats_raises (PDict total) e4).
Qed.

Lemma bind_sys_exit_0 (handler : io unit) :
  handler ≫= (λ _, sys_exit 0) = then_exit_0 handler.
Proof.
  destruct handler as [out [[]|e]]; simpl; [|done].
  unfold then_exit_0. simpl. by rewrite app_nil_r.
Qed.

(** X22: how a run ends.  The application runs one handler and then exits
    with status 0: with a user given, the single-user display; otherwise,
    with a file given, the aggregate display; otherwise it prints
    "Unexpected input.".  The output is the handler's; the run ends with
    [SystemExit 0] when the handler raised nothing and with the handler's
    error otherwise, so it never returns normally, and the error is never
    the [ConnectionError] of a failed request. *)
Theorem os_stats_exit script_dir fs net p :
  (∀ user, given (param_user p) = Some user →
     os_stats script_dir fs net p
     = then_exit_0 (display_user_stats net user (param_release p))) ∧
  (∀ file, given (param_user p) = None → given (param_file p) = Some file →
     os_stats script_dir fs net p
     = then_exit_0 (display_aggregate_stats script_dir fs net file
                      (param_map_file p) (param_release p))) ∧
  (given (param_user p) = None → given (param_file p) = None →
     os_stats script_dir fs net p
     = IO [Print "Unexpected input."] (Raise (SystemExit 0))) ∧
  ∃ e, io_res (os_stats script_dir fs net p) = Raise e ∧ e ≠ ConnectionError.
Proof.
  unfold os_stats. rewrite bind_sys_exit_0.
  split; [|split; [|split]].
  - by intros user ->.
  - by intros file -> ->.
  - by intros -> ->.
  - set (handler := match given (param_user p) with
                    | Some user => display_user_stats net user (param_release p)
                    | None => _
                    end).
    assert (∀ e, io_res handler = Raise e → e ≠ ConnectionError) as Hh.
    { subst handler. destruct (given (param_user p)) as [user|].
      - apply display_user_stats_raises.
      - destruct (given (param_file p)) as [file|].
        + apply display_aggregate_stats_raises.
        + done. }
    unfold then_exit_0. destruct (io_res handler) as [[]|e] eqn:He; simpl.
    + by exists (SystemExit 0).
    + exists e. split; [done|]. by apply Hh.
Qed.

Lemma os_stats_exit_witness :
  os_stats "/opt/stats" fs_example net_down
    (Params (Some "") None (Some "aliases.txt") (Some "kilo"))
  = IO [Print "Unexpected input."] (Raise (SystemExit 0)) ∧
  os_stats "/opt/stats" fs_example net_down
    (Params (Some "jdoe") None None None)
  = then_exit_0 (display_user_stats net_down "jdoe" None).
Proof.
  split.
  - apply (os_stats_exit "/opt/stats" fs_example net_down
             (Params (Some "") None (Some "aliases.txt") (Some "kilo")));
      reflexivity.
  - apply (proj1 (os_stats_exit "/opt/stats" fs_example net_down
                    (Params (Some "jdoe") None None None)) "jdoe").
    reflexivity.
Defined.

(** X23: [--user] takes precedence: when a user is given, the file and
    map-file parameters, the script directory and the files play no part. *)
Theorem os_stats_user_precedence script_dir script_dir' fs fs' net p p' :
  given (param_user p) ≠ None →
  param_user p' = param_user p →
  param_release p' = param_release p →
  os_stats script_dir fs net p = os_stats script_dir' fs' net p'.
Proof.
  intros Hgiven Hu Hr. unfold os_stats. rewrite Hu, Hr.
  by destruct (given (param_user p)).
Qed.

Lemma os_stats_user_precedence_witness :
  os_stats "/opt/stats" fs_example net_votes
    (Params (Some "jdoe") (Some "emails.txt") (Some "aliases.txt") None)
  = os_stats "" (λ _, ReadError "") net_votes
      (Params (Some "jdoe") None None None).
Proof.
  apply (os_stats_user_precedence "/opt/stats" "" fs_example
           (λ _, ReadError "") net_votes
           (Params (Some "jdoe") (Some "emails.txt") (Some "aliases.txt") None)
           (Params (Some "jdoe") None None None)).
  - discriminate.
  - reflexivity.
  - reflexivity.
Defined.
